(** * RepelBot: the moderation core of [repel.py]

    A shallow embedding of the message cache, the activity tracker, the
    message locator, the deletion pipeline and the two orchestration entry
    points ([on_message] and the [repel] command) of [src/repel.py].

    Conventions.
    - Snowflake ids (users, guilds, channels, messages) are [Z].
    - A [datetime] is the number of microseconds since the epoch, a [Z];
      a [timedelta] is a number of microseconds.
    - A Python [dict] whose iteration order is observed ([message_cache],
      [channel_groups]) is an insertion-ordered association list; a dict
      that is only indexed ([user_activity]) is a [gmap]; a [set] is a
      [gset].
    - Calls that leave the process (the Discord API) are answered by a
      [Platform] record of oracles; a call that may raise answers with the
      exception, if any.
    - The one loop of the program that is not a [for] over a finite
      sequence, the [while] of [delete_channel_messages], takes fuel. *)

From stdpp Require Import list gmap strings pretty.

Open Scope Z_scope.

(** ** Time *)

Definition seconds (n : Z) : Z := n * 1000000.
Definition minutes (n : Z) : Z := seconds (n * 60).
Definition days (n : Z) : Z := seconds (n * 86400).

(** ** Exceptions of discord.py that the program distinguishes *)

Inductive exn :=
| Forbidden                                        (* discord.Forbidden, HTTP 403 *)
| NotFound                                         (* discord.NotFound, HTTP 404 *)
| HTTPException (status : Z) (retry_after : option Z) (* any other discord.HTTPException;
                                                      retry_after in milliseconds *)
| OtherException.                                  (* not a discord.HTTPException *)

(** [except discord.HTTPException]: Forbidden and NotFound are subclasses. *)
Definition is_HTTPException (e : exn) : bool :=
  match e with
  | OtherException => false
  | _ => true
  end.

(** [e.status] of an HTTPException. *)
Definition status_of (e : exn) : Z :=
  match e with
  | Forbidden => 403
  | NotFound => 404
  | HTTPException s _ => s
  | OtherException => 0
  end.

(** [e.retry_after if hasattr(e, 'retry_after') else 1], in milliseconds. *)
Definition retry_delay (e : exn) : Z :=
  match e with
  | HTTPException _ (Some r) => r
  | _ => 1000
  end.

(** ** Data model *)

(** The dictionary appended to a channel's deque (lines 58-62). *)
Record CachedMessage := {
  cm_id : Z;
  cm_author_id : Z;
  cm_timestamp : Z
}.

(** A guild channel: [channel.id] and [channel.guild.id]. *)
Record Channel := {
  ch_id : Z;
  ch_guild_id : Z
}.

(** A guild: its id, the channels [get_channel] can resolve and its
    [text_channels] in order. *)
Record Guild := {
  g_id : Z;
  g_channels : list Channel;
  g_text_channels : list Channel
}.

(** A [discord.Message] as [on_message] reads it. [m_guild] is [None] for
    a direct message. *)
Record Message := {
  m_id : Z;
  m_author_id : Z;
  m_author_bot : bool;
  m_channel : Channel;
  m_guild : option Guild;
  m_created_at : Z
}.

#[global] Instance CachedMessage_eq_dec : EqDecision CachedMessage.
Proof. solve_decision. Defined.
#[global] Instance Channel_eq_dec : EqDecision Channel.
Proof. solve_decision. Defined.

(** ** Insertion-ordered dictionaries *)

Section Dict.
Context {K V : Type} `{EqDecision K}.

Fixpoint dict_get (k : K) (d : list (K * V)) : option V :=
  match d with
  | [] => None
  | (k', v) :: d' => if decide (k = k') then Some v else dict_get k d'
  end.

(** [d[k] = v]: an existing key keeps its place, a new key goes last. *)
Fixpoint dict_set (k : K) (v : V) (d : list (K * V)) : list (K * V) :=
  match d with
  | [] => [(k, v)]
  | (k', v') :: d' =>
      if decide (k = k') then (k, v) :: d' else (k', v') :: dict_set k v d'
  end.

Lemma dict_get_set_eq k v d : dict_get k (dict_set k v d) = Some v.
Proof.
  induction d as [|[k' v'] d IH]; simpl.
  - by rewrite decide_True.
  - destruct (decide (k = k')) as [->|Hne]; simpl.
    + by rewrite decide_True.
    + by rewrite decide_False.
Qed.

Lemma dict_get_set_ne k k' v d :
  k ≠ k' → dict_get k' (dict_set k v d) = dict_get k' d.
Proof.
  intros Hne. induction d as [|[k0 v0] d IH]; simpl.
  - by rewrite decide_False.
  - destruct (decide (k = k0)) as [->|Hne0]; simpl.
    + by rewrite !decide_False.
    + by rewrite IH.
Qed.
End Dict.

(** ** Message cache (lines 28-30 and 54-62) *)

Definition max_cache_size : nat := 500.

(** [collections.deque(maxlen=n).append(x)]: append on the right and, when
    the length then exceeds [maxlen], pop from the left. *)
Definition deque_append {A} (maxlen : nat) (d : list A) (x : A) : list A :=
  let d' := d ++ [x] in
  if decide (maxlen < length d')%nat then drop 1 d' else d'.

Definition cache_entry (m : Message) : CachedMessage :=
  {| cm_id := m_id m; cm_author_id := m_author_id m;
     cm_timestamp := m_created_at m |}.

Definition MessageCache := list (Z * list CachedMessage).

(** Lines 55-62 of [on_message]. *)
Definition record (cache : MessageCache) (m : Message) : MessageCache :=
  let c := ch_id (m_channel m) in
  let cache1 :=
    match dict_get c cache with
    | None => dict_set c [] cache
    | Some _ => cache
    end in
  match dict_get c cache1 with
  | Some d => dict_set c (deque_append max_cache_size d (cache_entry m)) cache1
  | None => cache1
  end.

(** The cached messages of channel [c] ([[]] when the channel has no deque). *)
Definition cached (cache : MessageCache) (c : Z) : list CachedMessage :=
  default [] (dict_get c cache).

(** The last [n] elements of a list. *)
Definition last_n {A} (n : nat) (l : list A) : list A :=
  drop (length l - n) l.

(** The entries a run of messages sends to channel [c], in arrival order. *)
Definition arrivals (c : Z) (ms : list Message) : list CachedMessage :=
  cache_entry <$> filter (λ m, ch_id (m_channel m) = c) ms.

Lemma cached_record_same cache m :
  cached (record cache m) (ch_id (m_channel m)) =
  deque_append max_cache_size (cached cache (ch_id (m_channel m))) (cache_entry m).
Proof.
  unfold record, cached.
  destruct (dict_get _ cache) as [d|] eqn:Hd; simpl.
  - rewrite Hd. by rewrite dict_get_set_eq.
  - rewrite dict_get_set_eq. by rewrite dict_get_set_eq.
Qed.

Lemma cached_record_other cache m c :
  ch_id (m_channel m) ≠ c → cached (record cache m) c = cached cache c.
Proof.
  intros Hne. unfold record, cached.
  destruct (dict_get (ch_id (m_channel m)) cache) as [d|] eqn:Hd; simpl.
  - rewrite Hd. by rewrite dict_get_set_ne.
  - rewrite dict_get_set_eq. by rewrite !dict_get_set_ne.
Qed.

Lemma deque_append_last_n {A} (n : nat) (l : list A) (x : A) :
  deque_append n (last_n n l) x = last_n n (l ++ [x]) ∨ n = 0%nat.
Proof.
  destruct (decide (n = 0%nat)) as [->|Hn]; [by right|left].
  unfold deque_append, last_n.
  rewrite length_app, length_drop, length_app. simpl.
  destruct (decide (length l < n)%nat) as [Hlt|Hge].
  - replace (length l - n)%nat with 0%nat by lia.
    replace (length l + 1 - n)%nat with 0%nat by lia.
    simpl. rewrite decide_False by lia. done.
  - rewrite decide_True by lia.
    rewrite (drop_app_le (drop _ l)) by (rewrite length_drop; lia).
    rewrite drop_app_le by lia.
    rewrite drop_drop. do 2 f_equal. lia.
Qed.

Lemma cached_foldl_record c (ms : list Message) :
  cached (foldl record [] ms) c = last_n max_cache_size (arrivals c ms).
Proof.
  induction ms as [|m ms IH] using rev_ind; [done|].
  rewrite foldl_app. simpl. unfold arrivals. rewrite filter_app, fmap_app.
  destruct (decide (ch_id (m_channel m) = c)) as [<-|Hne].
  - rewrite cached_record_same, IH.
    rewrite filter_cons_True by done. rewrite filter_nil. simpl.
    destruct (deque_append_last_n max_cache_size
                (arrivals (ch_id (m_channel m)) ms) (cache_entry m)) as [H|H];
      [exact H | discriminate H].
  - rewrite cached_record_other by done. rewrite IH.
    rewrite filter_cons_False by done. rewrite filter_nil. simpl.
    by rewrite app_nil_r.
Qed.

(** C6. For every sequence of messages recorded from the empty cache and
    every channel: the stored sequence of the channel is the last 500 of
    the entries that arrived for it, in arrival order, so its length never
    exceeds 500; and one more [record], into the channel of the message,
    stores what the channel held followed by the new entry, minus the
    oldest element exactly when the channel held 500. [record] is a total
    function: it cannot fail. *)
Theorem record_fifo_bounded (ms : list Message) (c : Z) (m : Message) :
  let cache := foldl record [] ms in
  let stored := cached cache c in
  let here := cached cache (ch_id (m_channel m)) in
  stored = last_n 500 (arrivals c ms)
  ∧ (length stored ≤ 500)%nat
  ∧ cached (record cache m) (ch_id (m_channel m)) =
      if decide (length here = 500%nat)
      then drop 1 here ++ [cache_entry m]
      else here ++ [cache_entry m].
Proof.
  intros cache stored here.
  assert (Hbound : ∀ c', (length (cached cache c') ≤ 500)%nat).
  { intros c'. subst cache. rewrite cached_foldl_record.
    unfold last_n. rewrite length_drop. unfold max_cache_size. lia. }
  split_and!; [apply cached_foldl_record|apply Hbound|].
  rewrite cached_record_same. fold here.
  unfold deque_append. rewrite length_app. simpl.
  pose proof (Hbound (ch_id (m_channel m))) as Hlen. fold here in Hlen.
  unfold max_cache_size.
  destruct (decide (length here = 500%nat)) as [Heq|Hne].
  - rewrite decide_True by lia.
    rewrite drop_app_le by lia. done.
  - rewrite decide_False by lia. done.
Qed.

(** ** Activity tracker and spam detector (lines 33-34 and 64-82) *)

(** [user_activity]: user id, then guild id, to the list of
    [(channel_id, timestamp)] pairs. *)
Abbreviation Activity := (gmap Z (gmap Z (list (Z * Z)))).

(** Reading [user_activity[u][g]]: the defaults of the two [defaultdict]s
    are the empty dict and the empty list. *)
Definition activity_of (ua : Activity) (u g : Z) : list (Z * Z) :=
  default [] (default ∅ (ua !! u) !! g).

(** Storing a list at [user_activity[u][g]]. *)
Definition set_activity (ua : Activity) (u g : Z) (w : list (Z * Z)) : Activity :=
  <[u := <[g := w]> (default ∅ (ua !! u))]> ua.

(** Line 71: append the pair. *)
Definition track (ua : Activity) (u g ch ts : Z) : Activity :=
  set_activity ua u g (activity_of ua u g ++ [(ch, ts)]).

(** Lines 74-78: keep the entries with [ts > cutoff], [now] being the
    clock at the time of the call. *)
Definition clean_old (now : Z) (ua : Activity) (u g : Z) : Activity :=
  let cutoff := now - seconds 30 in
  set_activity ua u g (filter (λ e, cutoff < e.2) (activity_of ua u g)).

Definition observe (now : Z) (ua : Activity) (u g ch ts : Z) : Activity :=
  clean_old now (track ua u g ch ts) u g.

(** Line 81: [len(set(ch_id for ch_id, _ in ...))]. *)
Definition unique_channels (w : list (Z * Z)) : nat :=
  size (list_to_set (w.*1) : gset Z).

(** Line 82: the auto-repel condition. *)
Definition should_trigger (w : list (Z * Z)) : bool :=
  bool_decide (3 ≤ unique_channels w)%nat.

(** Line 94: [user_activity[u][g].clear()]. *)
Definition reset (ua : Activity) (u g : Z) : Activity :=
  set_activity ua u g [].

(** One observation: the clock and the four arguments. *)
Record Observation := {
  o_now : Z;
  o_user : Z;
  o_guild : Z;
  o_channel : Z;
  o_timestamp : Z
}.

Definition observe_one (ua : Activity) (o : Observation) : Activity :=
  observe (o_now o) ua (o_user o) (o_guild o) (o_channel o) (o_timestamp o).

Lemma activity_of_set ua u g w : activity_of (set_activity ua u g w) u g = w.
Proof.
  unfold activity_of, set_activity.
  rewrite lookup_insert_eq. simpl. by rewrite lookup_insert_eq.
Qed.

Lemma activity_of_set_ne ua u g u' g' w :
  (u, g) ≠ (u', g') →
  activity_of (set_activity ua u g w) u' g' = activity_of ua u' g'.
Proof.
  intros Hne. unfold activity_of, set_activity.
  destruct (decide (u = u')) as [->|Hu].
  - rewrite lookup_insert_eq. simpl.
    rewrite lookup_insert_ne by congruence. done.
  - by rewrite lookup_insert_ne.
Qed.

Lemma activity_of_observe now ua u g ch ts :
  activity_of (observe now ua u g ch ts) u g =
  filter (λ e, now - seconds 30 < e.2) (activity_of ua u g ++ [(ch, ts)]).
Proof.
  unfold observe, clean_old, track. by rewrite !activity_of_set.
Qed.

(** C5. For every sequence of earlier observations and every further
    observation, the sequence stored for that user and guild after the
    observation is the previous sequence with the new pair appended,
    filtered to the entries with [timestamp > now - 30s]; so every entry
    it retains has a timestamp strictly greater than [now - 30s]. *)
Theorem observe_keeps_trailing_window (os : list Observation) (o : Observation) :
  let before := foldl observe_one ∅ os in
  let stored := activity_of (observe_one before o) (o_user o) (o_guild o) in
  stored = filter (λ e, o_now o - seconds 30 < e.2)
             (activity_of before (o_user o) (o_guild o)
                ++ [(o_channel o, o_timestamp o)])
  ∧ Forall (λ e, e.2 > o_now o - seconds 30) stored.
Proof.
  intros before stored.
  assert (Hst : stored = filter (λ e, o_now o - seconds 30 < e.2)
             (activity_of before (o_user o) (o_guild o)
                ++ [(o_channel o, o_timestamp o)])).
  { subst stored. unfold observe_one at 1. apply activity_of_observe. }
  split; [exact Hst|].
  rewrite Hst. apply Forall_forall. intros e He.
  apply list_elem_of_filter in He as [He _]. lia.
Qed.

(** The number of distinct elements of a list, counted on the list. *)
Definition distinct_count (l : list Z) : nat := length (remove_dups l).

Lemma unique_channels_distinct w : unique_channels w = distinct_count (w.*1).
Proof.
  unfold unique_channels, distinct_count.
  rewrite <- (size_list_to_set (C:=gset Z) (remove_dups (w.*1)))
    by apply NoDup_remove_dups.
  f_equal. apply set_eq. intros x.
  by rewrite !elem_of_list_to_set, elem_of_remove_dups.
Qed.

Lemma three_distinct (l : list Z) :
  (3 ≤ distinct_count l)%nat ↔
  ∃ a b c, a ≠ b ∧ a ≠ c ∧ b ≠ c ∧ a ∈ l ∧ b ∈ l ∧ c ∈ l.
Proof.
  unfold distinct_count. split.
  - intros Hlen.
    pose proof (NoDup_remove_dups l) as Hnd.
    assert (Hin : ∀ x, x ∈ remove_dups l → x ∈ l)
      by (intros x; apply elem_of_remove_dups).
    destruct (remove_dups l) as [|a [|b [|c r]]]; simpl in Hlen; try lia.
    exists a, b, c.
    apply NoDup_cons in Hnd as [Ha Hnd]. apply NoDup_cons in Hnd as [Hb _].
    rewrite !elem_of_cons in Ha, Hb.
    split_and!; try (apply Hin; rewrite !elem_of_cons; tauto); intros ->;
      first [by apply Ha; rewrite ?elem_of_cons; auto
            |by apply Hb; rewrite ?elem_of_cons; auto].
  - intros (a & b & c & Hab & Hac & Hbc & Ha & Hb & Hc).
    change 3%nat with (length [a; b; c]).
    apply submseteq_length, NoDup_submseteq.
    + rewrite !NoDup_cons, !elem_of_cons, !elem_of_nil.
      split_and!; [intuition congruence..|apply NoDup_nil_2].
    + intros x Hx. apply elem_of_remove_dups.
      rewrite !elem_of_cons, elem_of_nil in Hx.
      destruct Hx as [->|[->|[->|[]]]]; assumption.
Qed.

(** C4. For every state of the tracker, user and guild: the condition of
    line 82 is true exactly when the window holds at least 3 distinct
    channel ids (three pairwise different channels occur in it), and false
    exactly when it holds 0, 1 or 2 distinct ones, whatever the number of
    entries of the window. *)
Theorem should_trigger_iff_three_channels (ua : Activity) (u g : Z) :
  let w := activity_of ua u g in
  (should_trigger w = true ↔ (3 ≤ distinct_count (w.*1))%nat)
  ∧ (should_trigger w = true ↔
     ∃ a b c, a ≠ b ∧ a ≠ c ∧ b ≠ c ∧ a ∈ w.*1 ∧ b ∈ w.*1 ∧ c ∈ w.*1)
  ∧ (should_trigger w = false ↔ (distinct_count (w.*1) ≤ 2)%nat).
Proof.
  simpl. set (w := activity_of ua u g). unfold should_trigger.
  rewrite unique_channels_distinct.
  split_and!.
  - by rewrite bool_decide_eq_true.
  - by rewrite bool_decide_eq_true, three_distinct.
  - rewrite bool_decide_eq_false. lia.
Qed.

(** ** The platform: what the Discord API answers

    Each field is one awaited call of the program. A call that can raise
    answers [Some e] for the exception and [None] for success. The calls of
    the deletion pipeline are numbered per channel and per invocation of
    [delete_channel_messages], in the order that invocation issues them, so
    that the answers may change from one attempt to the next. *)
Record Platform := {
  (** [channel.permissions_for(guild.me).read_message_history] *)
  read_message_history : Channel → bool;
  (** the messages [channel.history(limit=n)] yields, newest first, until
      it is exhausted or raises [Forbidden] (lines 137-144 keep what was
      found so far in both cases) *)
  history : Channel → Z → list Message;
  (** [channel.fetch_message(id)]: [None] when it raises *)
  fetch_message : Channel → Z → option Message;
  (** the [k]-th [channel.delete_messages(batch)] *)
  delete_messages : Channel → nat → list Message → option exn;
  (** the [i]-th [msg.delete()] *)
  message_delete : Channel → nat → Message → option exn;
  (** [member.timeout(duration, reason)] *)
  member_timeout : Z → Z → option exn;
  (** [channel.send(text)] of the auto-repel summary *)
  channel_send : Channel → option exn;
  (** [interaction.followup.send(text)] *)
  followup_send : option exn;
  (** the clock [delete_channel_messages] reads at line 191 for a channel *)
  deletion_clock : Channel → Z
}.

(** Python's [len], an integer. *)
Definition len {A} (l : list A) : Z := Z.of_nat (length l).

(** [l[i:i+n] for i in range(0, len(l), n)], for [n ≥ 1]. *)
Fixpoint chunks_aux {A} (fuel n : nat) (l : list A) : list (list A) :=
  match fuel, l with
  | S fuel', _ :: _ => take n l :: chunks_aux fuel' n (drop n l)
  | _, _ => []
  end.

Definition chunks {A} (n : nat) (l : list A) : list (list A) :=
  chunks_aux (length l) n l.

(** [l[:limit]], with Python's reading of a negative bound. *)
Definition slice_to {A} (limit : Z) (l : list A) : list A :=
  if decide (0 ≤ limit) then take (Z.to_nat limit) l
  else take (length l - Z.to_nat (- limit)) l.

(** ** Message locator: [get_user_messages] (lines 107-166) *)

Abbreviation Candidate := (Channel * Z)%type.

(** [guild.get_channel(channel_id)] *)
Definition get_channel (guild : Guild) (channel_id : Z) : option Channel :=
  head (filter (λ c, ch_id c = channel_id) (g_channels guild)).

(** Lines 117-122: one channel's deque. [inl] is the early [return]. *)
Fixpoint scan_cached (user limit : Z) (channel : Channel)
    (cached_msgs : list CachedMessage)
    (messages : list Candidate) (existing_ids : gset Z)
  : list Candidate + (list Candidate * gset Z) :=
  match cached_msgs with
  | [] => inr (messages, existing_ids)
  | msg_data :: rest =>
      if decide (cm_author_id msg_data = user) then
        let messages' := messages ++ [(channel, cm_id msg_data)] in
        let existing_ids' := {[cm_id msg_data]} ∪ existing_ids in
        if decide (limit ≤ len messages') then inl messages'
        else scan_cached user limit channel rest messages' existing_ids'
      else scan_cached user limit channel rest messages existing_ids
  end.

(** Lines 114-122: the cache, in dictionary order. *)
Fixpoint scan_cache (guild : Guild) (user limit : Z) (cache : MessageCache)
    (messages : list Candidate) (existing_ids : gset Z)
  : list Candidate + (list Candidate * gset Z) :=
  match cache with
  | [] => inr (messages, existing_ids)
  | (channel_id, cached_msgs) :: rest =>
      match get_channel guild channel_id with
      | Some channel =>
          if decide (ch_guild_id channel = g_id guild) then
            match scan_cached user limit channel cached_msgs messages existing_ids with
            | inl r => inl r
            | inr (messages', existing_ids') =>
                scan_cache guild user limit rest messages' existing_ids'
            end
          else scan_cache guild user limit rest messages existing_ids
      | None => scan_cache guild user limit rest messages existing_ids
      end
  end.

(** Line 136 *)
Definition search_limit (remaining : Z) : Z := Z.max (remaining * 5) 100.

(** Lines 137-142: the loop over one channel's history. *)
Fixpoint search_history (user remaining : Z) (channel : Channel)
    (hist : list Message) (found : list Candidate) (existing_ids : gset Z)
  : list Candidate * gset Z :=
  match hist with
  | [] => (found, existing_ids)
  | message :: rest =>
      if decide (m_author_id message = user ∧ m_id message ∉ existing_ids) then
        let found' := found ++ [(channel, m_id message)] in
        let existing_ids' := {[m_id message]} ∪ existing_ids in
        if decide (remaining ≤ len found') then (found', existing_ids')
        else search_history user remaining channel rest found' existing_ids'
      else search_history user remaining channel rest found existing_ids
  end.

(** Lines 129-145: [search_channel], on the shared [existing_ids]. *)
Definition search_channel (P : Platform) (user remaining : Z)
    (channel : Channel) (existing_ids : gset Z) : list Candidate * gset Z :=
  if read_message_history P channel then
    search_history user remaining channel
      (history P channel (search_limit remaining)) [] existing_ids
  else ([], existing_ids).

(** Lines 151-152: the tasks of one batch. A task tests and extends
    [existing_ids] without awaiting in between, so the tasks are run here
    one after the other, in the order [gather] returns their results. *)
Fixpoint gather_search (P : Platform) (user remaining : Z)
    (batch : list Channel) (existing_ids : gset Z)
  : list (list Candidate) * gset Z :=
  match batch with
  | [] => ([], existing_ids)
  | channel :: rest =>
      let '(found, existing_ids') :=
        search_channel P user remaining channel existing_ids in
      let '(results, existing_ids'') :=
        gather_search P user remaining rest existing_ids' in
      (found :: results, existing_ids'')
  end.

(** Lines 155-158: collect the results of one batch. *)
Fixpoint collect (limit : Z) (results : list (list Candidate))
    (messages : list Candidate) : list Candidate :=
  match results with
  | [] => messages
  | channel_messages :: rest =>
      let messages' := messages ++ channel_messages in
      if decide (limit ≤ len messages') then messages'
      else collect limit rest messages'
  end.

(** Lines 149-164: the batches of five channels. *)
Fixpoint search_batches (P : Platform) (user remaining limit : Z)
    (batches : list (list Channel))
    (messages : list Candidate) (existing_ids : gset Z) : list Candidate :=
  match batches with
  | [] => messages
  | batch :: rest =>
      let '(results, existing_ids') :=
        gather_search P user remaining batch existing_ids in
      let messages' := collect limit results messages in
      if decide (limit ≤ len messages') then messages'
      else search_batches P user remaining limit rest messages' existing_ids'
  end.

Definition get_user_messages (P : Platform) (cache : MessageCache)
    (guild : Guild) (user limit : Z) : list Candidate :=
  match scan_cache guild user limit cache [] ∅ with
  | inl messages => messages
  | inr (messages, existing_ids) =>
      let messages' :=
        if decide (len messages < limit) then
          let remaining := limit - len messages in
          search_batches P user remaining limit
            (chunks 5 (g_text_channels guild)) messages existing_ids
        else messages in
      slice_to limit messages'
  end.

(** *** The length bound of the locator *)

Lemma len_app {A} (l k : list A) : len (l ++ k) = len l + len k.
Proof. unfold len. rewrite length_app. lia. Qed.

Lemma len_nonneg {A} (l : list A) : 0 ≤ len l.
Proof. unfold len. lia. Qed.

Lemma scan_cached_bound user limit channel cached_msgs messages existing_ids :
  len messages < Z.max limit 1 →
  match scan_cached user limit channel cached_msgs messages existing_ids with
  | inl r => len r ≤ Z.max limit 1
  | inr (m, _) => len m < Z.max limit 1
  end.
Proof.
  revert messages existing_ids.
  induction cached_msgs as [|msg_data rest IH]; intros messages existing_ids Hlt;
    simpl; [done|].
  destruct (decide (cm_author_id msg_data = user)); [|by apply IH].
  destruct (decide (limit ≤ len (messages ++ [(channel, cm_id msg_data)])))
    as [Hge|Hnge].
  - rewrite len_app. unfold len at 2. simpl. lia.
  - apply IH. lia.
Qed.

Lemma scan_cache_bound guild user limit cache messages existing_ids :
  len messages < Z.max limit 1 →
  match scan_cache guild user limit cache messages existing_ids with
  | inl r => len r ≤ Z.max limit 1
  | inr (m, _) => len m < Z.max limit 1
  end.
Proof.
  revert messages existing_ids.
  induction cache as [|[channel_id cached_msgs] rest IH];
    intros messages existing_ids Hlt; simpl; [done|].
  destruct (get_channel guild channel_id) as [channel|]; [|by apply IH].
  destruct (decide (ch_guild_id channel = g_id guild)); [|by apply IH].
  pose proof (scan_cached_bound user limit channel cached_msgs messages
                existing_ids Hlt) as Hc.
  destruct (scan_cached _ _ _ _ _ _) as [r|[m ids]]; [done|by apply IH].
Qed.

Lemma len_slice_to {A} (limit : Z) (l : list A) :
  0 ≤ limit → len (slice_to limit l) ≤ limit.
Proof.
  intros Hl. unfold slice_to, len. rewrite decide_True by done.
  rewrite length_take. lia.
Qed.

(** The locator never returns more than [max(limit, 1)] candidates. *)
Lemma get_user_messages_bound P cache guild user limit :
  len (get_user_messages P cache guild user limit) ≤ Z.max limit 1.
Proof.
  unfold get_user_messages.
  pose proof (scan_cache_bound guild user limit cache [] ∅) as Hc.
  destruct (scan_cache _ _ _ _ _ _) as [r|[m e]].
  - apply Hc. unfold len. simpl. lia.
  - assert (Hm : len m < Z.max limit 1) by (apply Hc; unfold len; simpl; lia).
    destruct (decide (0 ≤ limit)) as [Hpos|Hneg].
    + etrans; [by apply len_slice_to|lia].
    + rewrite decide_False by (pose proof (len_nonneg m); lia).
      assert (m = []) as ->.
      { destruct m; [done|]. unfold len in Hm. simpl in Hm. lia. }
      unfold slice_to. rewrite decide_False by done.
      rewrite take_nil. unfold len. simpl. lia.
Qed.

(** X25. For a positive [limit] the locator returns at most [limit]
    candidates. *)
Lemma get_user_messages_at_most_limit P cache guild user limit :
  1 ≤ limit → len (get_user_messages P cache guild user limit) ≤ limit.
Proof.
  intros Hl. pose proof (get_user_messages_bound P cache guild user limit). lia.
Qed.

(** *** The locator returns no message id twice *)

(** What the cache holds for [user] in one channel, and in the channels of
    [guild], in the order the cache phase visits it. *)
Definition channel_candidates (user : Z) (channel : Channel)
    (cached_msgs : list CachedMessage) : list Candidate :=
  (λ m, (channel, cm_id m)) <$> filter (λ m, cm_author_id m = user) cached_msgs.

Fixpoint cached_candidates (guild : Guild) (user : Z) (cache : MessageCache)
  : list Candidate :=
  match cache with
  | [] => []
  | (channel_id, cached_msgs) :: rest =>
      match get_channel guild channel_id with
      | Some channel =>
          if decide (ch_guild_id channel = g_id guild)
          then channel_candidates user channel cached_msgs
                 ++ cached_candidates guild user rest
          else cached_candidates guild user rest
      | None => cached_candidates guild user rest
      end
  end.

(** The ids of a list of candidates. *)
Definition ids_of (l : list Candidate) : list Z := l.*2.

Lemma ids_of_app l k : ids_of (l ++ k) = ids_of l ++ ids_of k.
Proof. unfold ids_of. apply fmap_app. Qed.

Lemma scan_cached_spec user limit channel cached_msgs messages existing_ids :
  match scan_cached user limit channel cached_msgs messages existing_ids with
  | inl r => ∃ rest,
      messages ++ channel_candidates user channel cached_msgs = r ++ rest
  | inr (m, ids) =>
      m = messages ++ channel_candidates user channel cached_msgs
      ∧ ∀ i, i ∈ ids ↔ i ∈ existing_ids
                       ∨ i ∈ ids_of (channel_candidates user channel cached_msgs)
  end.
Proof.
  revert messages existing_ids.
  induction cached_msgs as [|msg_data rest IH]; intros messages existing_ids;
    simpl.
  - unfold channel_candidates. simpl. rewrite app_nil_r. split; [done|].
    intros i. unfold ids_of. simpl. rewrite elem_of_nil. tauto.
  - unfold channel_candidates. rewrite filter_cons.
    destruct (decide (cm_author_id msg_data = user)) as [Hu|Hu].
    + rewrite fmap_cons.
      destruct (decide (limit ≤ len (messages ++ [(channel, cm_id msg_data)]))).
      * eexists. rewrite <- app_assoc. simpl. reflexivity.
      * specialize (IH (messages ++ [(channel, cm_id msg_data)])
                       ({[cm_id msg_data]} ∪ existing_ids)).
        destruct (scan_cached _ _ _ _ _ _) as [r|[m ids]].
        -- destruct IH as [rest' IH]. exists rest'. rewrite <- IH.
           rewrite <- app_assoc. done.
        -- destruct IH as [-> IH]. rewrite <- app_assoc. split; [done|].
           intros i. rewrite IH. unfold ids_of. simpl.
           rewrite elem_of_union, elem_of_singleton, elem_of_cons. tauto.
    + apply IH.
Qed.

Lemma scan_cache_spec guild user limit cache messages existing_ids :
  match scan_cache guild user limit cache messages existing_ids with
  | inl r => ∃ rest, messages ++ cached_candidates guild user cache = r ++ rest
  | inr (m, ids) =>
      m = messages ++ cached_candidates guild user cache
      ∧ ∀ i, i ∈ ids ↔ i ∈ existing_ids
                       ∨ i ∈ ids_of (cached_candidates guild user cache)
  end.
Proof.
  revert messages existing_ids.
  induction cache as [|[channel_id cached_msgs] rest IH];
    intros messages existing_ids; simpl.
  - rewrite app_nil_r. split; [done|].
    intros i. unfold ids_of. simpl. rewrite elem_of_nil. tauto.
  - destruct (get_channel guild channel_id) as [channel|]; [|apply IH].
    destruct (decide (ch_guild_id channel = g_id guild)); [|apply IH].
    pose proof (scan_cached_spec user limit channel cached_msgs messages
                  existing_ids) as Hc.
    destruct (scan_cached _ _ _ _ _ _) as [r|[m ids]].
    + destruct Hc as [rest' Hc]. eexists.
      rewrite app_assoc, Hc, <- app_assoc. reflexivity.
    + destruct Hc as [-> Hids].
      specialize (IH (messages ++ channel_candidates user channel cached_msgs) ids).
      destruct (scan_cache _ _ _ _ _ _) as [r|[m' ids']].
      * destruct IH as [rest' IH]. exists rest'. rewrite <- IH.
        by rewrite <- app_assoc.
      * destruct IH as [-> IH]. rewrite <- app_assoc. split; [done|].
        intros i. rewrite IH, Hids, ids_of_app, elem_of_app. tauto.
Qed.

Lemma search_history_spec user remaining channel hist found existing_ids :
  ∃ new,
    (search_history user remaining channel hist found existing_ids).1
      = found ++ new
    ∧ NoDup (ids_of new)
    ∧ (∀ i, i ∈ ids_of new → i ∉ existing_ids)
    ∧ (∀ i, i ∈ (search_history user remaining channel hist found
                   existing_ids).2
            ↔ i ∈ existing_ids ∨ i ∈ ids_of new).
Proof.
  revert found existing_ids.
  induction hist as [|message rest IH]; intros found existing_ids; simpl.
  - exists []. rewrite app_nil_r. split_and!; [done|constructor|..].
    + intros i Hi. by apply elem_of_nil in Hi.
    + intros i. unfold ids_of. simpl. rewrite elem_of_nil. tauto.
  - destruct (decide (m_author_id message = user ∧ m_id message ∉ existing_ids))
      as [[Hu Hfresh]|Hno]; [|apply IH].
    destruct (decide (remaining ≤ len (found ++ [(channel, m_id message)]))).
    + exists [(channel, m_id message)]. simpl. split_and!.
      * done.
      * apply NoDup_singleton.
      * intros i Hi. apply list_elem_of_singleton in Hi as ->. done.
      * intros i. rewrite elem_of_union, elem_of_singleton.
        unfold ids_of. simpl. rewrite list_elem_of_singleton. tauto.
    + destruct (IH (found ++ [(channel, m_id message)])
                   ({[m_id message]} ∪ existing_ids))
        as (new & Hr & Hnd & Hfr & Hids).
      exists ((channel, m_id message) :: new). split_and!.
      * rewrite Hr, <- app_assoc. done.
      * unfold ids_of. simpl. apply NoDup_cons. split; [|done].
        intros Hin. apply Hfr in Hin. apply Hin.
        apply elem_of_union. left. by apply elem_of_singleton.
      * intros i Hi. unfold ids_of in Hi. simpl in Hi.
        apply elem_of_cons in Hi as [->|Hi]; [done|].
        apply Hfr in Hi. intros Hin. apply Hi. apply elem_of_union. by right.
      * intros i. rewrite Hids, elem_of_union, elem_of_singleton.
        unfold ids_of. simpl. rewrite elem_of_cons. tauto.
Qed.

Lemma gather_search_spec P user remaining batch existing_ids :
  let r := gather_search P user remaining batch existing_ids in
  NoDup (ids_of (concat r.1))
  ∧ (∀ i, i ∈ ids_of (concat r.1) → i ∉ existing_ids)
  ∧ (∀ i, i ∈ r.2 ↔ i ∈ existing_ids ∨ i ∈ ids_of (concat r.1)).
Proof.
  revert existing_ids. induction batch as [|channel rest IH];
    intros existing_ids; simpl.
  - split_and!; [constructor|..].
    + intros i Hi. by apply elem_of_nil in Hi.
    + intros i. unfold ids_of. simpl. rewrite elem_of_nil. tauto.
  - assert (Hs : ∃ new,
        (search_channel P user remaining channel existing_ids).1 = new
        ∧ NoDup (ids_of new)
        ∧ (∀ i, i ∈ ids_of new → i ∉ existing_ids)
        ∧ (∀ i, i ∈ (search_channel P user remaining channel existing_ids).2
                ↔ i ∈ existing_ids ∨ i ∈ ids_of new)).
    { unfold search_channel.
      destruct (read_message_history P channel).
      - destruct (search_history_spec user remaining channel
                    (history P channel (search_limit remaining)) [] existing_ids)
          as (new & Hr & Hrest).
        exists new. by rewrite Hr.
      - exists []. simpl. split_and!; [done|constructor|..].
        + intros i Hi. by apply elem_of_nil in Hi.
        + intros i. unfold ids_of. simpl. rewrite elem_of_nil. tauto. }
    destruct Hs as (new & Hr & Hnd & Hfr & Hids).
    destruct (search_channel P user remaining channel existing_ids)
      as [found ids1]. simpl in Hr, Hids. subst found.
    specialize (IH ids1).
    destruct (gather_search P user remaining rest ids1) as [results ids2].
    simpl in *. destruct IH as (Hnd' & Hfr' & Hids').
    rewrite ids_of_app. split_and!.
    + apply NoDup_app. split_and!; [done| |done].
      intros i Hi Hi'. apply Hfr' in Hi'. apply Hi'. apply Hids. by right.
    + intros i Hi. apply elem_of_app in Hi as [Hi|Hi]; [by apply Hfr|].
      apply Hfr' in Hi. intros Hin. apply Hi. apply Hids. by left.
    + intros i. rewrite Hids', Hids, elem_of_app. tauto.
Qed.

Lemma collect_spec limit results messages :
  ∃ a b, collect limit results messages = messages ++ a ∧ concat results = a ++ b.
Proof.
  revert messages. induction results as [|r rest IH]; intros messages; simpl.
  - exists [], []. by rewrite app_nil_r.
  - destruct (decide (limit ≤ len (messages ++ r))).
    + by exists r, (concat rest).
    + destruct (IH (messages ++ r)) as (a & b & Hc & Hr).
      exists (r ++ a), b. rewrite Hc, Hr, <- !app_assoc. done.
Qed.

Lemma search_batches_NoDup P user remaining limit batches messages existing_ids :
  NoDup (ids_of messages) →
  (∀ i, i ∈ ids_of messages → i ∈ existing_ids) →
  NoDup (ids_of (search_batches P user remaining limit batches messages
                   existing_ids)).
Proof.
  revert messages existing_ids.
  induction batches as [|batch rest IH]; intros messages existing_ids Hnd Hsub;
    simpl; [done|].
  pose proof (gather_search_spec P user remaining batch existing_ids) as Hg.
  destruct (gather_search P user remaining batch existing_ids)
    as [results ids1]. simpl in Hg. destruct Hg as (Hnd1 & Hfr1 & Hids1).
  destruct (collect_spec limit results messages) as (a & b & Hc & Hab).
  rewrite Hab, ids_of_app in Hnd1, Hfr1, Hids1.
  apply NoDup_app in Hnd1 as (Hnda & _ & _).
  assert (Hnd' : NoDup (ids_of (collect limit results messages))).
  { rewrite Hc, ids_of_app. apply NoDup_app. split_and!; [done| |done].
    intros i Hi Hi'. apply (Hfr1 i); [|by apply Hsub].
    apply elem_of_app. by left. }
  destruct (decide (limit ≤ len (collect limit results messages))); [done|].
  apply IH; [done|].
  intros i. rewrite Hc, ids_of_app, elem_of_app, Hids1, elem_of_app.
  intros [Hi|Hi]; [left; by apply Hsub | right; by left].
Qed.

Lemma prefix_ids_NoDup (r rest full : list Candidate) :
  full = r ++ rest → NoDup (ids_of full) → NoDup (ids_of r).
Proof.
  intros -> Hnd. rewrite ids_of_app in Hnd. by apply NoDup_app in Hnd as (? & _).
Qed.

(** When the cache holds no message id of the user twice, the locator
    returns no message id twice, whatever the channel histories answer. *)
Lemma get_user_messages_NoDup P cache guild user limit :
  NoDup (ids_of (cached_candidates guild user cache)) →
  NoDup (ids_of (get_user_messages P cache guild user limit)).
Proof.
  intros Hnd. unfold get_user_messages.
  pose proof (scan_cache_spec guild user limit cache [] ∅) as Hc.
  destruct (scan_cache _ _ _ _ _ _) as [r|[m ids]].
  - destruct Hc as [rest Hc]. simpl in Hc. by eapply prefix_ids_NoDup.
  - destruct Hc as [-> Hids]. simpl in *.
    assert (Htake : ∀ l : list Candidate,
               NoDup (ids_of l) → NoDup (ids_of (slice_to limit l))).
    { intros l Hl. unfold slice_to.
      destruct (decide (0 ≤ limit));
        (eapply prefix_ids_NoDup; [symmetry; apply take_drop | exact Hl]). }
    apply Htake.
    destruct (decide (len (cached_candidates guild user cache) < limit)); [|done].
    apply search_batches_NoDup; [done|].
    intros i Hi. apply Hids. by right.
Qed.

(** ** Deletion pipeline: [delete_channel_messages] (lines 168-238) *)

(** What one invocation does, in order. [EvFallback] and [EvDefer] are the
    two [old.extend(...)] of lines 211/214 and 218; they call nothing. *)
Inductive DelEvent :=
| EvFetch (ids : list Z)            (* one gather of [fetch_message] *)
| EvSleep (ms : Z)                  (* [asyncio.sleep], in milliseconds *)
| EvBulk (batch : list Message)     (* one [channel.delete_messages(batch)] *)
| EvFallback (batch : list Message) (* [old.extend(batch)] *)
| EvDefer (rest : list Message)     (* [old.extend(recent)] *)
| EvSingles (batch : list Message). (* one gather of [delete_single] *)

(** How an invocation ends: it returns the count, an exception leaves it,
    or the fuel of the [while] loop ran out before the loop ended. *)
Inductive Completion :=
| Returned (deleted : nat)
| Raised (e : exn)
| Unfinished.

Record Run := {
  completion : Completion;
  trace : list DelEvent
}.

(** The pause after a batch: taken when another batch follows
    ([i + n < len(...)]). *)
Definition pause_between {A} (rest : list A) (ms : Z) : list DelEvent :=
  match rest with
  | [] => []
  | _ :: _ => [EvSleep ms]
  end.

(** Lines 175-185: resolve the ids, ten at a time, dropping the failures. *)
Fixpoint fetch_batches (P : Platform) (channel : Channel)
    (batches : list (list Z)) : list Message * list DelEvent :=
  match batches with
  | [] => ([], [])
  | batch_ids :: rest =>
      let fetched := omap (fetch_message P channel) batch_ids in
      let '(valid_messages, tr) := fetch_batches P channel rest in
      (fetched ++ valid_messages,
       EvFetch batch_ids :: pause_between rest 50 ++ tr)
  end.

(** The state in which the [while] loop of lines 196-215 is left. *)
Inductive LoopEnd :=
| LoopDone (recent old : list Message) (deleted : nat)
| LoopRaised (e : exn)
| LoopUnfinished.

Definition prepend (evs : list DelEvent) (r : LoopEnd * list DelEvent)
  : LoopEnd * list DelEvent :=
  (r.1, evs ++ r.2).

(** Lines 196-215. [k] counts the bulk calls issued so far; each unit of
    fuel pays for one iteration. *)
Fixpoint bulk_loop (P : Platform) (channel : Channel) (fuel k : nat)
    (recent old : list Message) (deleted : nat) : LoopEnd * list DelEvent :=
  if decide (length recent < 2)%nat then (LoopDone recent old deleted, [])
  else
    match fuel with
    | O => (LoopUnfinished, [])
    | S fuel' =>
        let batch := take 100 recent in
        match delete_messages P channel k batch with
        | None =>
            prepend [EvBulk batch]
              (bulk_loop P channel fuel' (S k) (drop 100 recent) old
                 (deleted + length batch))
        | Some e =>
            if is_HTTPException e then
              if decide (status_of e = 429) then
                match delete_messages P channel (S k) batch with
                | None =>
                    prepend [EvBulk batch; EvSleep (retry_delay e); EvBulk batch]
                      (bulk_loop P channel fuel' (S (S k)) (drop 100 recent) old
                         (deleted + length batch))
                | Some _ =>
                    prepend [EvBulk batch; EvSleep (retry_delay e); EvBulk batch;
                             EvFallback batch]
                      (bulk_loop P channel fuel' (S (S k)) recent (old ++ batch)
                         deleted)
                end
              else
                prepend [EvBulk batch; EvFallback batch]
                  (bulk_loop P channel fuel' (S k) (drop 100 recent)
                     (old ++ batch) deleted)
            else (LoopRaised e, [EvBulk batch])
        end
    end.

(** Lines 223-228: [delete_single]. *)
Definition delete_single (P : Platform) (channel : Channel) (i : nat)
    (msg : Message) : nat :=
  match message_delete P channel i msg with
  | None => 1
  | Some _ => 0
  end.

(** Lines 231-236: the individual deletions, five at a time; [i] counts the
    deletions attempted so far. *)
Fixpoint delete_batches (P : Platform) (channel : Channel) (i : nat)
    (batches : list (list Message)) : nat * list DelEvent :=
  match batches with
  | [] => (0%nat, [])
  | batch :: rest =>
      let results := imap (λ j msg, delete_single P channel (i + j) msg) batch in
      let '(n, tr) := delete_batches P channel (i + length batch) rest in
      ((sum_list results + n)%nat,
       EvSingles batch :: pause_between rest 50 ++ tr)
  end.

(** The messages the ids resolve to (the [valid_messages] of line 181). *)
Definition resolved (P : Platform) (channel : Channel) (msg_ids : list Z)
  : list Message :=
  (fetch_batches P channel (chunks 10 msg_ids)).1.

(** The partition of lines 191-193, [now] being the clock at line 191. *)
Definition recent_of (now : Z) (valid_messages : list Message) : list Message :=
  filter (λ msg, now - days 14 < m_created_at msg) valid_messages.

Definition old_of (now : Z) (valid_messages : list Message) : list Message :=
  filter (λ msg, m_created_at msg ≤ now - days 14) valid_messages.

Definition delete_channel_messages (fuel : nat) (P : Platform) (now : Z)
    (channel : Channel) (msg_ids : list Z) : Run :=
  let '(valid_messages, tr1) := fetch_batches P channel (chunks 10 msg_ids) in
  match valid_messages with
  | [] => {| completion := Returned 0; trace := tr1 |}
  | _ :: _ =>
      let recent := recent_of now valid_messages in
      let old := old_of now valid_messages in
      match bulk_loop P channel fuel 0 recent old 0 with
      | (LoopDone recent' old' deleted, tr2) =>
          let old'' := old' ++ recent' in
          let '(n, tr3) := delete_batches P channel 0 (chunks 5 old'') in
          {| completion := Returned (deleted + n);
             trace := tr1 ++ tr2 ++ [EvDefer recent'] ++ tr3 |}
      | (LoopRaised e, tr2) => {| completion := Raised e; trace := tr1 ++ tr2 |}
      | (LoopUnfinished, tr2) => {| completion := Unfinished; trace := tr1 ++ tr2 |}
      end
  end.

(** Projections of a trace. *)
Definition bulk_calls (tr : list DelEvent) : list (list Message) :=
  omap (λ ev, match ev with EvBulk b => Some b | _ => None end) tr.

Definition fallbacks (tr : list DelEvent) : list (list Message) :=
  omap (λ ev, match ev with EvFallback b => Some b | _ => None end) tr.

Definition deferred (tr : list DelEvent) : list (list Message) :=
  omap (λ ev, match ev with EvDefer b => Some b | _ => None end) tr.

Definition single_batches (tr : list DelEvent) : list (list Message) :=
  omap (λ ev, match ev with EvSingles b => Some b | _ => None end) tr.

Definition sleeps (tr : list DelEvent) : list Z :=
  omap (λ ev, match ev with EvSleep ms => Some ms | _ => None end) tr.

(** *** Batches *)

(** Batches of [n]: every batch but the last holds exactly [n] elements,
    the last one between 1 and [n]. *)
Inductive full_batches {A} (n : nat) : list (list A) → Prop :=
| full_batches_nil : full_batches n []
| full_batches_last b :
    (0 < length b ≤ n)%nat → full_batches n [b]
| full_batches_cons b bs :
    length b = n → bs ≠ [] → full_batches n bs → full_batches n (b :: bs).

Lemma chunks_aux_fuel {A} (n fuel fuel' : nat) (l : list A) :
  (0 < n)%nat → (length l ≤ fuel)%nat → (length l ≤ fuel')%nat →
  chunks_aux fuel n l = chunks_aux fuel' n l.
Proof.
  intros Hn. revert fuel' l.
  induction fuel as [|fuel IH]; intros fuel' l Hf Hf'.
  - destruct l; [|simpl in Hf; lia]. by destruct fuel'.
  - destruct l as [|x l]; [by destruct fuel'|].
    destruct fuel' as [|fuel']; [simpl in Hf'; lia|].
    simpl. f_equal.
    assert (length (drop n (x :: l)) ≤ length l)%nat
      by (rewrite length_drop; simpl; lia).
    destruct n; [lia|]. simpl in *.
    apply IH; lia.
Qed.

Lemma chunks_nil {A} (n : nat) : chunks n (@nil A) = [].
Proof. done. Qed.

Lemma chunks_cons {A} (n : nat) (x : A) (l : list A) :
  (0 < n)%nat →
  chunks n (x :: l) = take n (x :: l) :: chunks n (drop n (x :: l)).
Proof.
  intros Hn. unfold chunks. simpl. f_equal.
  apply chunks_aux_fuel; [done| |done].
  rewrite length_drop. simpl. lia.
Qed.

Lemma chunks_ind {A} (n : nat) (Q : list A → Prop) :
  (0 < n)%nat →
  Q [] →
  (∀ l, l ≠ [] → Q (drop n l) → Q l) →
  ∀ l, Q l.
Proof.
  intros Hn Hnil Hstep l.
  assert (H : ∀ m (k : list A), (length k < m)%nat → Q k).
  { induction m as [|m IH]; intros k Hk; [lia|].
    destruct k as [|x k']; [done|].
    apply Hstep; [done|]. apply IH. rewrite length_drop. simpl in *. lia. }
  apply (H (S (length l))). lia.
Qed.

Lemma concat_chunks {A} (n : nat) (l : list A) :
  (0 < n)%nat → concat (chunks n l) = l.
Proof.
  intros Hn. revert l. apply (chunks_ind n); [done..|].
  intros l Hne IH. destruct l as [|x l]; [done|].
  rewrite chunks_cons by done. simpl concat. rewrite IH. apply take_drop.
Qed.

Lemma chunks_full_batches {A} (n : nat) (l : list A) :
  (0 < n)%nat → full_batches n (chunks n l).
Proof.
  intros Hn. revert l. apply (chunks_ind n); [done| |].
  - constructor.
  - intros l Hne IH. destruct l as [|x l]; [done|].
    rewrite chunks_cons by done.
    destruct (drop n (x :: l)) as [|y r] eqn:Hd.
    + rewrite chunks_nil. apply full_batches_last.
      rewrite length_take. simpl. lia.
    + apply full_batches_cons; [|by rewrite chunks_cons|exact IH].
      assert (Hl : length (drop n (x :: l)) = S (length r)) by by rewrite Hd.
      rewrite length_drop in Hl. rewrite length_take. lia.
Qed.

(** *** What the bulk loop and the individual stage do *)

(** The number of messages removed by the successful ones of the bulk calls
    [calls], issued as calls number [k], [k + 1], ... *)
Fixpoint bulk_deleted (P : Platform) (channel : Channel) (k : nat)
    (calls : list (list Message)) : nat :=
  match calls with
  | [] => 0
  | b :: rest =>
      (match delete_messages P channel k b with
       | None => length b
       | Some _ => 0
       end + bulk_deleted P channel (S k) rest)%nat
  end.

(** The number of successful ones of the individual deletions of [l],
    attempted as deletions number [i], [i + 1], ... *)
Fixpoint singles_deleted (P : Platform) (channel : Channel) (i : nat)
    (l : list Message) : nat :=
  match l with
  | [] => 0
  | msg :: rest =>
      (match message_delete P channel i msg with
       | None => 1
       | Some _ => 0
       end + singles_deleted P channel (S i) rest)%nat
  end.

Lemma singles_deleted_app P channel i l k :
  singles_deleted P channel i (l ++ k) =
  (singles_deleted P channel i l + singles_deleted P channel (i + length l) k)%nat.
Proof.
  revert i. induction l as [|msg l IH]; intros i; simpl.
  - f_equal. lia.
  - rewrite IH. replace (S i + length l)%nat with (i + S (length l))%nat by lia.
    lia.
Qed.

Lemma sum_delete_single P channel i batch :
  sum_list (imap (λ j msg, delete_single P channel (i + j) msg) batch) =
  singles_deleted P channel i batch.
Proof.
  revert i. induction batch as [|msg batch IH]; intros i; [done|].
  simpl. rewrite Nat.add_0_r. unfold delete_single at 1. f_equal.
  rewrite <- IH. f_equal. apply imap_ext. intros j x _. simpl.
  f_equal. lia.
Qed.

Ltac project_trace :=
  unfold bulk_calls, fallbacks, deferred, single_batches, sleeps, prepend;
  rewrite ?omap_app; simpl.

Lemma pause_between_silent {A} (rest : list A) ms :
  bulk_calls (pause_between rest ms) = []
  ∧ fallbacks (pause_between rest ms) = []
  ∧ deferred (pause_between rest ms) = []
  ∧ single_batches (pause_between rest ms) = [].
Proof. by destruct rest. Qed.

Lemma fetch_batches_silent P channel batches :
  let tr := (fetch_batches P channel batches).2 in
  bulk_calls tr = [] ∧ fallbacks tr = [] ∧ deferred tr = []
  ∧ single_batches tr = [].
Proof.
  induction batches as [|batch_ids rest IH]; simpl; [done|].
  destruct (fetch_batches P channel rest) as [valid tr]. simpl in *.
  destruct IH as (H1 & H2 & H3 & H4).
  destruct (pause_between_silent rest 50) as (G1 & G2 & G3 & G4).
  unfold bulk_calls, fallbacks, deferred, single_batches in *. simpl.
  rewrite !omap_app, H1, H2, H3, H4, G1, G2, G3, G4. done.
Qed.

Lemma delete_batches_spec P channel i batches :
  let r := delete_batches P channel i batches in
  r.1 = singles_deleted P channel i (concat batches)
  ∧ single_batches r.2 = batches
  ∧ bulk_calls r.2 = [] ∧ fallbacks r.2 = [] ∧ deferred r.2 = [].
Proof.
  revert i. induction batches as [|batch rest IH]; intros i; simpl; [done|].
  specialize (IH (i + length batch)%nat).
  destruct (delete_batches P channel (i + length batch) rest) as [n tr].
  simpl in *. destruct IH as (-> & H1 & H2 & H3 & H4).
  destruct (pause_between_silent rest 50) as (G1 & G2 & G3 & G4).
  split_and!.
  - by rewrite sum_delete_single, singles_deleted_app.
  - unfold single_batches in *. simpl. by rewrite omap_app, G4, H1.
  - unfold bulk_calls in *. simpl. by rewrite omap_app, G1, H2.
  - unfold fallbacks in *. simpl. by rewrite omap_app, G2, H3.
  - unfold deferred in *. simpl. by rewrite omap_app, G3, H4.
Qed.

(** A bulk call on [batch], issued while [recent] held at least two
    messages: the batch is the next chunk of at most 100. *)
Definition chunk_of (recent batch : list Message) : Prop :=
  ∃ j, batch = take 100 (drop (100 * j) recent)
       ∧ (2 ≤ length (drop (100 * j) recent))%nat.

#[local] Arguments Nat.mul : simpl never.

Lemma chunk_of_here recent :
  (2 ≤ length recent)%nat → chunk_of recent (take 100 recent).
Proof. intros H. by exists 0%nat. Qed.

Lemma chunk_of_later recent batch :
  chunk_of (drop 100 recent) batch → chunk_of recent batch.
Proof.
  intros (j & -> & Hlen). exists (S j). rewrite drop_drop in *.
  by replace (100 * S j)%nat with (100 + 100 * j)%nat by lia.
Qed.

Lemma bulk_loop_spec P channel fuel k recent old deleted :
  let r := bulk_loop P channel fuel k recent old deleted in
  Forall (chunk_of recent) (bulk_calls r.2)
  ∧ single_batches r.2 = [] ∧ deferred r.2 = []
  ∧ ∀ recent' old' deleted',
      r.1 = LoopDone recent' old' deleted' →
      (∃ j, recent' = drop (100 * j) recent)
      ∧ (length recent' < 2)%nat
      ∧ old' = old ++ concat (fallbacks r.2)
      ∧ deleted' = (deleted + bulk_deleted P channel k (bulk_calls r.2))%nat.
Proof.
  revert k recent old deleted.
  induction fuel as [|fuel IH]; intros k recent old deleted; simpl.
  - destruct (decide (length recent < 2)%nat) as [Hlt|Hge]; simpl.
    + split_and!; [constructor|done|done|].
      intros ? ? ? [= <- <- <-]. split_and!; [by exists 0%nat|done|..].
      * by rewrite app_nil_r.
      * lia.
    + split_and!; [constructor|done|done|]. intros ? ? ? [=].
  - destruct (decide (length recent < 2)%nat) as [Hlt|Hge]; simpl.
    { split_and!; [constructor|done|done|].
      intros ? ? ? [= <- <- <-]. split_and!; [by exists 0%nat|done|..].
      - by rewrite app_nil_r.
      - lia. }
    assert (Hhere : chunk_of recent (take 100 recent))
      by (apply chunk_of_here; lia).
    assert (Hlater : ∀ tr, Forall (chunk_of (drop 100 recent)) tr →
                           Forall (chunk_of recent) tr).
    { intros tr Htr. eapply Forall_impl; [exact Htr|].
      intros b. apply chunk_of_later. }
    assert (Hsuffix : ∀ j (l : list Message),
               l = drop (100 * j) (drop 100 recent) → ∃ j', l = drop (100 * j') recent).
    { intros j l ->. exists (S j). rewrite drop_drop. f_equal. lia. }
    destruct (delete_messages P channel k (take 100 recent)) as [e|] eqn:Hcall.
    + destruct (is_HTTPException e).
      * destruct (decide (status_of e = 429)).
        -- destruct (delete_messages P channel (S k) (take 100 recent))
             as [e'|] eqn:Hretry.
           ++ specialize (IH (S (S k)) recent (old ++ take 100 recent) deleted).
              destruct (bulk_loop _ _ _ _ _ _ _) as [r tr]. simpl in *.
              destruct IH as (Hc & Hs & Hd & Hdone).
              project_trace. split_and!; [by repeat constructor|done|done|].
              intros ? ? ? Hr. destruct (Hdone _ _ _ Hr) as (Hj & Hl & -> & ->).
              split_and!; [done|done|..].
              ** by rewrite <- app_assoc.
              ** rewrite Hcall, Hretry. unfold bulk_calls. lia.
           ++ specialize (IH (S (S k)) (drop 100 recent) old
                            (deleted + length (take 100 recent))%nat).
              destruct (bulk_loop _ _ _ _ _ _ _) as [r tr]. simpl in *.
              destruct IH as (Hc & Hs & Hd & Hdone).
              project_trace. split_and!; [by repeat constructor; auto|done|done|].
              intros ? ? ? Hr.
              destruct (Hdone _ _ _ Hr) as ([j Hj] & Hl & -> & ->).
              split_and!; [by eapply Hsuffix|done|done|].
              rewrite Hcall, Hretry. unfold bulk_calls. lia.
        -- specialize (IH (S k) (drop 100 recent) (old ++ take 100 recent) deleted).
           destruct (bulk_loop _ _ _ _ _ _ _) as [r tr]. simpl in *.
           destruct IH as (Hc & Hs & Hd & Hdone).
           project_trace. split_and!; [by repeat constructor; auto|done|done|].
           intros ? ? ? Hr.
           destruct (Hdone _ _ _ Hr) as ([j Hj] & Hl & -> & ->).
           split_and!; [by eapply Hsuffix|done|..].
           ** by rewrite <- app_assoc.
           ** rewrite Hcall. unfold bulk_calls. lia.
      * project_trace. split_and!; [by repeat constructor|done|done|].
        intros ? ? ? [=].
    + specialize (IH (S k) (drop 100 recent) old
                     (deleted + length (take 100 recent))%nat).
      destruct (bulk_loop _ _ _ _ _ _ _) as [r tr]. simpl in *.
      destruct IH as (Hc & Hs & Hd & Hdone).
      project_trace. split_and!; [by repeat constructor; auto|done|done|].
      intros ? ? ? Hr.
      destruct (Hdone _ _ _ Hr) as ([j Hj] & Hl & -> & ->).
      split_and!; [by eapply Hsuffix|done|done|].
      rewrite Hcall. unfold bulk_calls. lia.
Qed.

Lemma projections_of_bulk_events (calls : list (list Message)) :
  bulk_calls (EvBulk <$> calls) = calls
  ∧ fallbacks (EvBulk <$> calls) = []
  ∧ deferred (EvBulk <$> calls) = []
  ∧ single_batches (EvBulk <$> calls) = [].
Proof.
  unfold bulk_calls, fallbacks, deferred, single_batches.
  split_and!; induction calls as [|b calls IH]; simpl; try done.
  by f_equal.
Qed.

(** When the platform fails no bulk call, [length recent] iterations end the
    loop: its calls are the chunks of 100 of [recent], and at most one
    message is left over. *)
Lemma bulk_loop_all_succeed P channel fuel k recent old deleted :
  (∀ k' batch, delete_messages P channel k' batch = None) →
  (length recent ≤ fuel)%nat →
  ∃ calls leftover,
    bulk_loop P channel fuel k recent old deleted =
      (LoopDone leftover old (deleted + length (concat calls)), EvBulk <$> calls)
    ∧ concat calls ++ leftover = recent
    ∧ (length leftover < 2)%nat
    ∧ full_batches 100 calls.
Proof.
  intros Hok. revert k recent deleted.
  induction fuel as [|fuel IH]; intros k recent deleted Hfuel; simpl.
  - destruct recent; [|simpl in Hfuel; lia].
    exists [], []. simpl. rewrite Nat.add_0_r. split_and!; [done|done|lia|constructor].
  - destruct (decide (length recent < 2)%nat) as [Hlt|Hge].
    { exists [], recent. simpl. rewrite Nat.add_0_r.
      split_and!; [done|done|done|constructor]. }
    rewrite Hok.
    destruct (IH (S k) (drop 100 recent) (deleted + length (take 100 recent))%nat)
      as (calls & leftover & -> & Hcat & Hleft & Hfull).
    { rewrite length_drop. lia. }
    exists (take 100 recent :: calls), leftover. unfold prepend. simpl.
    split_and!.
    + rewrite length_app. do 2 f_equal. lia.
    + rewrite <- app_assoc, Hcat. apply take_drop.
    + done.
    + destruct calls as [|b calls].
      * apply full_batches_last. rewrite length_take. lia.
      * apply full_batches_cons; [|done|done].
        assert (Hb : (0 < length b)%nat).
        { inversion Hfull; subst; lia. }
        assert (Hd : (0 < length (drop 100 recent))%nat).
        { rewrite <- Hcat. simpl. rewrite !length_app. lia. }
        rewrite length_drop in Hd. rewrite length_take. lia.
Qed.

(** The loop ends within [length recent] iterations on every platform that
    never fails the retry that follows an HTTP 429: every other path of
    the body shortens [recent]. *)
Lemma bulk_loop_ends_when_retries_succeed P channel fuel k recent old deleted :
  (∀ k' batch e,
     delete_messages P channel k' batch = Some e →
     is_HTTPException e = true → status_of e = 429 →
     delete_messages P channel (S k') batch = None) →
  (length recent ≤ fuel)%nat →
  (bulk_loop P channel fuel k recent old deleted).1 ≠ LoopUnfinished.
Proof.
  intros Hretry. revert k recent old deleted.
  induction fuel as [|fuel IH]; intros k recent old deleted Hfuel; simpl.
  - destruct recent; [|simpl in Hfuel; lia]. by rewrite decide_True by (simpl; lia).
  - destruct (decide (length recent < 2)%nat) as [Hlt|Hge]; [done|].
    assert (Hshort : (length (drop 100 recent) ≤ fuel)%nat)
      by (rewrite length_drop; lia).
    destruct (delete_messages P channel k (take 100 recent)) as [e|] eqn:Hcall;
      [|by apply IH].
    destruct (is_HTTPException e) eqn:Hhttp; [|done].
    destruct (decide (status_of e = 429)) as [H429|]; [|by apply IH].
    rewrite (Hretry _ _ _ Hcall Hhttp H429). by apply IH.
Qed.

Lemma chunk_of_sized recent batch :
  chunk_of recent batch → (2 ≤ length batch ≤ 100)%nat.
Proof. intros (j & -> & Hlen). rewrite length_take. lia. Qed.

Lemma chunk_of_elem recent batch msg :
  chunk_of recent batch → msg ∈ batch → msg ∈ recent.
Proof.
  intros (j & -> & _) Hin.
  apply (subseteq_drop (100 * j)), (subseteq_take 100). exact Hin.
Qed.

(** The run of [delete_channel_messages], split at its three stages. *)
Lemma delete_channel_messages_unfold fuel P now channel msg_ids :
  let valid := resolved P channel msg_ids in
  let tr1 := (fetch_batches P channel (chunks 10 msg_ids)).2 in
  let loop := bulk_loop P channel fuel 0 (recent_of now valid) (old_of now valid) 0 in
  delete_channel_messages fuel P now channel msg_ids =
    match valid with
    | [] => {| completion := Returned 0; trace := tr1 |}
    | _ :: _ =>
        match loop.1 with
        | LoopDone recent' old' deleted =>
            let singles := delete_batches P channel 0 (chunks 5 (old' ++ recent')) in
            {| completion := Returned (deleted + singles.1);
               trace := tr1 ++ loop.2 ++ [EvDefer recent'] ++ singles.2 |}
        | LoopRaised e => {| completion := Raised e; trace := tr1 ++ loop.2 |}
        | LoopUnfinished => {| completion := Unfinished; trace := tr1 ++ loop.2 |}
        end
    end.
Proof.
  unfold delete_channel_messages, resolved. simpl.
  destruct (fetch_batches P channel (chunks 10 msg_ids)) as [valid tr1]. simpl.
  destruct valid as [|msg valid]; [done|].
  destruct (bulk_loop _ _ _ _ _ _ _) as [[recent' old' deleted|e|] tr2]; simpl;
    [|done|done].
  by destruct (delete_batches _ _ _ _).
Qed.

Lemma bulk_calls_app tr tr' : bulk_calls (tr ++ tr') = bulk_calls tr ++ bulk_calls tr'.
Proof. apply omap_app. Qed.
Lemma fallbacks_app tr tr' : fallbacks (tr ++ tr') = fallbacks tr ++ fallbacks tr'.
Proof. apply omap_app. Qed.
Lemma deferred_app tr tr' : deferred (tr ++ tr') = deferred tr ++ deferred tr'.
Proof. apply omap_app. Qed.
Lemma single_batches_app tr tr' :
  single_batches (tr ++ tr') = single_batches tr ++ single_batches tr'.
Proof. apply omap_app. Qed.

(** The bulk calls of a run are those of its loop. *)
Lemma run_bulk_calls fuel P now channel msg_ids :
  let valid := resolved P channel msg_ids in
  bulk_calls (trace (delete_channel_messages fuel P now channel msg_ids)) =
    match valid with
    | [] => []
    | _ :: _ =>
        bulk_calls
          (bulk_loop P channel fuel 0 (recent_of now valid) (old_of now valid) 0).2
    end.
Proof.
  rewrite delete_channel_messages_unfold. cbv zeta.
  destruct (fetch_batches_silent P channel (chunks 10 msg_ids)) as (F1 & _).
  destruct (resolved P channel msg_ids) as [|msg valid]; [exact F1|].
  destruct (bulk_loop _ _ _ _ _ _ _) as [[r' o' d|e|] tr2]; cbn [fst snd trace];
    rewrite !bulk_calls_app, F1; [|done..].
  pose proof (delete_batches_spec P channel 0 (chunks 5 (o' ++ r')))
    as (_ & _ & -> & _).
  change (bulk_calls [EvDefer r']) with (@nil (list Message)).
  by rewrite !app_nil_r.
Qed.

(** A run that returns: either nothing was resolved, or the loop ended and
    the individual stage ran on what the loop left. *)
Lemma run_returned fuel P now channel msg_ids n :
  let run := delete_channel_messages fuel P now channel msg_ids in
  let valid := resolved P channel msg_ids in
  completion run = Returned n →
  (valid = [] ∧ n = 0%nat ∧ bulk_calls (trace run) = []
   ∧ fallbacks (trace run) = []
   ∧ deferred (trace run) = [] ∧ single_batches (trace run) = [])
  ∨ (∃ recent' old' deleted tr2,
       bulk_loop P channel fuel 0 (recent_of now valid) (old_of now valid) 0
         = (LoopDone recent' old' deleted, tr2)
       ∧ n = (deleted + singles_deleted P channel 0 (old' ++ recent'))%nat
       ∧ bulk_calls (trace run) = bulk_calls tr2
       ∧ fallbacks (trace run) = fallbacks tr2
       ∧ deferred (trace run) = [recent']
       ∧ single_batches (trace run) = chunks 5 (old' ++ recent')).
Proof.
  intros run valid. subst run valid.
  rewrite delete_channel_messages_unfold. cbv zeta.
  destruct (fetch_batches_silent P channel (chunks 10 msg_ids))
    as (F1 & F2 & F3 & F4).
  destruct (resolved P channel msg_ids) as [|msg valid].
  { intros [= <-]. left. by cbn [trace]. }
  pose proof (bulk_loop_spec P channel fuel 0
                (recent_of now (msg :: valid)) (old_of now (msg :: valid)) 0)
    as (_ & Hs & Hd & _).
  destruct (bulk_loop _ _ _ _ _ _ _) as [[r' o' d|e|] tr2]; cbn [fst snd] in *;
    [|done|done].
  intros [= <-]. right. exists r', o', d, tr2.
  pose proof (delete_batches_spec P channel 0 (chunks 5 (o' ++ r')))
    as (D0 & D2 & D1 & D3 & D4).
  cbn [trace].
  rewrite !bulk_calls_app, !fallbacks_app, !deferred_app, !single_batches_app.
  rewrite F1, F2, F3, F4, Hs, Hd, D0, D1, D2, D3, D4.
  rewrite concat_chunks by lia.
  change (bulk_calls [EvDefer r']) with (@nil (list Message)).
  change (fallbacks [EvDefer r']) with (@nil (list Message)).
  change (deferred [EvDefer r']) with [r'].
  change (single_batches [EvDefer r']) with (@nil (list Message)).
  by rewrite !app_nil_r.
Qed.

(** The bulk calls of a run, relative to the list [recent] that line 192
    computes: each is the next chunk of it; a returned run leaves at most
    one message of it over; when no bulk call fails the calls are its
    chunks of 100. *)
Lemma bulk_calls_are_chunks_of_recent (fuel : nat) (P : Platform) (now : Z)
    (channel : Channel) (msg_ids : list Z) :
  let run := delete_channel_messages fuel P now channel msg_ids in
  let recent := recent_of now (resolved P channel msg_ids) in
  let old := old_of now (resolved P channel msg_ids) in
  Forall (λ batch,
            chunk_of recent batch
            ∧ (2 ≤ length batch ≤ 100)%nat
            ∧ Forall (λ msg, now - days 14 < m_created_at msg) batch)
         (bulk_calls (trace run))
  ∧ (∀ n, completion run = Returned n →
       ∃ j, concat (deferred (trace run)) = drop (100 * j) recent
            ∧ (length (drop (100 * j) recent) ≤ 1)%nat
            ∧ Forall (λ batch, ∃ j', (j' < j)%nat
                               ∧ batch = take 100 (drop (100 * j') recent))
                     (bulk_calls (trace run))
            ∧ concat (single_batches (trace run)) =
                old ++ concat (fallbacks (trace run)) ++ drop (100 * j) recent)
  ∧ ((∀ k batch, delete_messages P channel k batch = None) →
     (length recent ≤ fuel)%nat →
     ∃ leftover,
       concat (bulk_calls (trace run)) ++ leftover = recent
       ∧ (length leftover ≤ 1)%nat
       ∧ full_batches 100 (bulk_calls (trace run))
       ∧ concat (single_batches (trace run)) = old ++ leftover
       ∧ ∃ n, completion run = Returned n).
Proof.
  intros run recent old.
  pose proof (run_bulk_calls fuel P now channel msg_ids) as Hcalls.
  pose proof (λ n, run_returned fuel P now channel msg_ids n) as Hret.
  cbv zeta in Hcalls, Hret. fold run recent old in Hcalls, Hret.
  pose proof (bulk_loop_spec P channel fuel 0 recent old 0) as Hloop.
  cbv zeta in Hloop. destruct Hloop as (Hchunks & _ & _ & Hdone).
  assert (Hnil : resolved P channel msg_ids = [] → recent = [] ∧ old = []).
  { intros H. subst recent old. rewrite H. unfold recent_of, old_of.
    by rewrite !filter_nil. }
  split_and!.
  - rewrite Hcalls.
    destruct (resolved P channel msg_ids) as [|msg valid]; [constructor|].
    eapply Forall_impl; [exact Hchunks|]. intros batch Hb.
    split; [done|]. split; [by eapply chunk_of_sized|].
    apply Forall_forall. intros m Hm.
    apply (chunk_of_elem _ _ _ Hb) in Hm. subst recent. unfold recent_of in Hm.
    by apply list_elem_of_filter in Hm as [? _].
  - intros n Hn.
    destruct (Hret n Hn) as [(Hv & _ & -> & -> & -> & ->)
                            |(r' & o' & d & tr2 & Hl & _ & -> & -> & -> & ->)].
    + destruct (Hnil Hv) as [-> ->]. exists 0%nat. rewrite drop_nil.
      split_and!; [done|simpl; lia|constructor|done].
    + rewrite Hl in Hdone, Hchunks. cbn [snd] in Hchunks.
      destruct (Hdone _ _ _ eq_refl) as ([j ->] & Hlen & -> & _).
      exists j. cbn [concat]. rewrite app_nil_r, concat_chunks by lia.
      split_and!; [done|lia| |by rewrite <- app_assoc].
      eapply Forall_impl; [exact Hchunks|].
      intros batch (j' & -> & Hj'). exists j'. split; [|done].
      rewrite length_drop in Hlen, Hj'. lia.
  - intros Hok Hfuel.
    destruct (bulk_loop_all_succeed P channel fuel 0 recent old 0 Hok Hfuel)
      as (calls & leftover & Heq & Hcat & Hleft & Hfull).
    destruct (projections_of_bulk_events calls) as (B1 & B2 & _).
    assert (Hrun : ∃ n, completion run = Returned n).
    { subst run. rewrite delete_channel_messages_unfold. cbv zeta.
      fold recent old. rewrite Heq.
      destruct (resolved P channel msg_ids); by eexists. }
    destruct Hrun as [n Hn].
    destruct (Hret n Hn) as [(Hv & _ & -> & _ & _ & ->)
                            |(r' & o' & d & tr2 & Hl & _ & -> & _ & _ & ->)].
    + destruct (Hnil Hv) as [Hr Ho]. rewrite Hr, Ho.
      exists []. split_and!; [done|simpl; lia|constructor|done|by eexists].
    + rewrite Heq in Hl. injection Hl as <- <- _ <-.
      exists leftover. rewrite B1, concat_chunks by lia.
      split_and!; [done|lia|done|done|by eexists].
Qed.

(** The individual stage of a run that returns, relative to the events of
    the loop. *)
Lemma individual_stage_of_a_returned_run (fuel : nat) (P : Platform)
    (now : Z) (channel : Channel) (msg_ids : list Z) (n : nat) :
  let run := delete_channel_messages fuel P now channel msg_ids in
  completion run = Returned n →
  let attempted := concat (single_batches (trace run)) in
  attempted = old_of now (resolved P channel msg_ids)
                ++ concat (fallbacks (trace run))
                ++ concat (deferred (trace run))
  ∧ full_batches 5 (single_batches (trace run))
  ∧ n = (bulk_deleted P channel 0 (bulk_calls (trace run))
         + singles_deleted P channel 0 attempted)%nat
  ∧ (singles_deleted P channel 0 attempted ≤ length attempted)%nat.
Proof.
  intros run Hn attempted.
  assert (Hle : ∀ i l, (singles_deleted P channel i l ≤ length l)%nat).
  { intros i l. revert i. induction l as [|m l IH]; intros i; simpl; [done|].
    specialize (IH (S i)). destruct (message_delete P channel i m); lia. }
  pose proof (run_returned fuel P now channel msg_ids n Hn) as Hret.
  cbv zeta in Hret. fold run in Hret.
  pose proof (bulk_loop_spec P channel fuel 0
      (recent_of now (resolved P channel msg_ids))
      (old_of now (resolved P channel msg_ids)) 0) as (_ & _ & _ & Hdone).
  split_and!; [| | |apply Hle]; subst attempted.
  all: destruct Hret as [(Hv & -> & Hb & Hf & Hd & Hs)
                        |(r' & o' & d & tr2 & Hl & -> & Hb & Hf & Hd & Hs)];
    rewrite ?Hb, ?Hf, ?Hd, ?Hs.
  - rewrite Hv. unfold old_of. by rewrite filter_nil.
  - rewrite Hl in Hdone. destruct (Hdone _ _ _ eq_refl) as (_ & _ & -> & _).
    cbn [snd concat]. rewrite concat_chunks by lia.
    by rewrite app_nil_r, <- app_assoc.
  - constructor.
  - apply chunks_full_batches. lia.
  - done.
  - rewrite Hl in Hdone. destruct (Hdone _ _ _ eq_refl) as (_ & _ & _ & ->).
    rewrite concat_chunks by lia. cbn [snd]. lia.
Qed.

(** ** Concrete platforms and messages *)

Definition general : Channel := {| ch_id := 10; ch_guild_id := 1 |}.
Definition random : Channel := {| ch_id := 11; ch_guild_id := 1 |}.
Definition offtopic : Channel := {| ch_id := 12; ch_guild_id := 1 |}.

Definition server : Guild :=
  {| g_id := 1;
     g_channels := [general; random; offtopic];
     g_text_channels := [general; random; offtopic] |}.

(** The user 7 is the spammer of the examples. *)
Definition spammer : Z := 7.

(** A message of the spammer in [general]. *)
Definition spam (id created : Z) : Message :=
  {| m_id := id; m_author_id := spammer; m_author_bot := false;
     m_channel := general; m_guild := Some server; m_created_at := created |}.

(** A platform on which every call succeeds, no channel has history, and
    message [id] was created at time [0] when [id ≤ 100] and 15 days
    earlier otherwise. *)
Definition obliging : Platform :=
  {| read_message_history := λ _, true;
     history := λ _ _, [];
     fetch_message := λ _ id,
       Some (spam id (if decide (id ≤ 100) then 0 else - days 15));
     delete_messages := λ _ _ _, None;
     message_delete := λ _ _ _, None;
     member_timeout := λ _ _, None;
     channel_send := λ _, None;
     followup_send := None;
     deletion_clock := λ _, 0 |}.

(** The same platform, answering every bulk deletion with HTTP 429 and no
    [retry_after]. *)
Definition always_rate_limited : Platform :=
  {| read_message_history := read_message_history obliging;
     history := history obliging;
     fetch_message := fetch_message obliging;
     delete_messages := λ _ _ _, Some (HTTPException 429 None);
     message_delete := message_delete obliging;
     member_timeout := member_timeout obliging;
     channel_send := channel_send obliging;
     followup_send := followup_send obliging;
     deletion_clock := deletion_clock obliging |}.

(** The same platform, refusing the timeout for lack of permission. *)
Definition timeout_forbidden : Platform :=
  {| read_message_history := read_message_history obliging;
     history := history obliging;
     fetch_message := fetch_message obliging;
     delete_messages := delete_messages obliging;
     message_delete := message_delete obliging;
     member_timeout := λ _ _, Some Forbidden;
     channel_send := channel_send obliging;
     followup_send := followup_send obliging;
     deletion_clock := deletion_clock obliging |}.

Lemma sleeps_app tr tr' : sleeps (tr ++ tr') = sleeps tr ++ sleeps tr'.
Proof. apply omap_app. Qed.

Lemma rate_limited_loop (fuel k : nat) (old : list Message) (deleted : nat) :
  let chunk := [spam 1 0; spam 2 0] in
  let r := bulk_loop always_rate_limited general fuel k chunk old deleted in
  r.1 = LoopUnfinished
  ∧ bulk_calls r.2 = replicate (2 * fuel) chunk
  ∧ sleeps r.2 = replicate fuel 1000.
Proof.
  intros chunk. revert k old deleted.
  induction fuel as [|fuel IH]; intros k old deleted; [done|].
  destruct (IH (S (S k)) (old ++ chunk) deleted) as (H1 & H2 & H3).
  replace (2 * S fuel)%nat with (S (S (2 * fuel))) by lia.
  cbn -[Nat.mul]. fold chunk.
  rewrite decide_False by lia. rewrite decide_True by done.
  unfold prepend. cbn [fst snd].
  rewrite bulk_calls_app, sleeps_app, H1, H2, H3. done.
Qed.

(** A platform that answers the first two bulk calls of a channel with
    HTTP 429 and lets the later ones succeed. *)
Definition rate_limited_twice : Platform :=
  {| read_message_history := read_message_history obliging;
     history := history obliging;
     fetch_message := fetch_message obliging;
     delete_messages := λ _ k _,
       if decide (k < 2)%nat then Some (HTTPException 429 (Some 2000)) else None;
     message_delete := λ _ _ _, Some NotFound;
     member_timeout := member_timeout obliging;
     channel_send := channel_send obliging;
     followup_send := followup_send obliging;
     deletion_clock := deletion_clock obliging |}.

(** After the failed retry the chunk is on the individual list and still
    the head of [recent]: the next iteration bulk-deletes it, and the
    individual stage then attempts its two messages again. *)
Example failed_retry_is_followed_by_a_third_bulk_call :
  delete_channel_messages 2 rate_limited_twice 0 general [1; 2] =
    {| completion := Returned 2;
       trace := [EvFetch [1; 2];
                 EvBulk [spam 1 0; spam 2 0]; EvSleep 2000;
                 EvBulk [spam 1 0; spam 2 0]; EvFallback [spam 1 0; spam 2 0];
                 EvBulk [spam 1 0; spam 2 0];
                 EvDefer [];
                 EvSingles [spam 1 0; spam 2 0]] |}.
Proof. reflexivity. Qed.

(** C1, on the code: two recent messages in a channel whose bulk deletion
    is always answered with HTTP 429. Every iteration of the loop waits the
    default second, retries once, puts the chunk on the individual list and
    then starts again on the same chunk: whatever the fuel, the loop has not
    ended, after [2 * fuel] bulk calls on that chunk and [fuel] waits. *)
Theorem rate_limited_chunk_is_retried_without_end (fuel : nat) :
  let run := delete_channel_messages fuel always_rate_limited 0 general [1; 2] in
  completion run = Unfinished
  ∧ bulk_calls (trace run) = replicate (2 * fuel) [spam 1 0; spam 2 0]
  ∧ sleeps (trace run) = replicate fuel 1000.
Proof.
  intros run. subst run. rewrite delete_channel_messages_unfold. cbv zeta.
  assert (Hv : resolved always_rate_limited general [1; 2] = [spam 1 0; spam 2 0])
    by reflexivity.
  rewrite Hv.
  assert (Hr : recent_of 0 [spam 1 0; spam 2 0] = [spam 1 0; spam 2 0])
    by reflexivity.
  rewrite Hr.
  destruct (rate_limited_loop fuel 0 (old_of 0 [spam 1 0; spam 2 0]) 0)
    as (H1 & H2 & H3).
  rewrite H1. cbn [completion trace].
  rewrite bulk_calls_app, sleeps_app, H2, H3. done.
Qed.

(** ** [delete_messages_efficiently] (lines 240-254) *)

(** Lines 243-245: group the ids by channel, in order of first occurrence. *)
Fixpoint group_by_channel (messages : list Candidate)
    (channel_groups : list (Channel * list Z)) : list (Channel * list Z) :=
  match messages with
  | [] => channel_groups
  | (channel, msg_id) :: rest =>
      group_by_channel rest
        (dict_set channel
           (default [] (dict_get channel channel_groups) ++ [msg_id])
           channel_groups)
  end.

(** [asyncio.gather] of the per-channel tasks: an exception of one task
    leaves the gather (the first one in task order is taken here); without
    one, the gather waits for every task. *)
Fixpoint gather_counts (runs : list Run) : Completion :=
  match runs with
  | [] => Returned 0
  | r :: rest =>
      match completion r, gather_counts rest with
      | Raised e, _ => Raised e
      | _, Raised e => Raised e
      | Unfinished, _ => Unfinished
      | _, Unfinished => Unfinished
      | Returned n, Returned m => Returned (n + m)
      end
  end.

Definition delete_messages_efficiently (fuel : nat) (P : Platform)
    (messages : list Candidate) : Completion :=
  let channel_groups := group_by_channel messages [] in
  gather_counts
    ((λ g, delete_channel_messages fuel P (deletion_clock P g.1) g.1 g.2)
       <$> channel_groups).

(** ** Orchestration: [on_message] (lines 49-105) and [repel] (264-337) *)

(** The state of the bot that the handlers touch. *)
Record State := {
  message_cache : MessageCache;
  user_activity : Activity
}.

(** A line of the summary of the [repel] command (lines 324-329). *)
Inductive ResponseLine :=
| TimedOut (user minutes : Z)
| CouldNotTimeout (user : Z)
| DeletedLine (deleted_count : nat).

(** What a handler does that is visible outside of it, in order. *)
Inductive Action :=
| ActEphemeral (text : string)        (* [interaction.response.send_message] *)
| ActDefer                            (* [interaction.response.defer] *)
| ActTimeout (user duration : Z)      (* [member.timeout] *)
| ActLocate (guild user limit : Z)    (* [get_user_messages] *)
| ActDelete (messages : list Candidate) (* [delete_messages_efficiently] *)
| ActReset (user guild : Z)           (* [user_activity[u][g].clear()] *)
| ActSummary (channel : Channel) (user : Z) (unique_channels deleted_count : nat)
                                      (* the [channel.send] of lines 98-101 *)
| ActFollowup (response : list ResponseLine) (* [interaction.followup.send] *)
| ActChannelSend (channel : Channel) (response : list ResponseLine)
                                      (* [interaction.channel.send] *)
| ActProcessCommands.                 (* [process_commands] *)

(** How a handler ends: it returns, an exception leaves it, or it waits
    for ever on a call that does not return. *)
Inductive Ending :=
| Completed
| Propagated (e : exn)
| Stuck.

Record Handled := {
  state : State;
  actions : list Action;
  ending : Ending
}.

(** Line 105, after the auto-repel block. *)
Definition then_process_commands (st : State) (acts : list Action) : Handled :=
  {| state := st; actions := acts ++ [ActProcessCommands]; ending := Completed |}.

(** The [except discord.Forbidden: pass] of lines 102-103. *)
Definition except_forbidden (st : State) (acts : list Action) (e : exn) : Handled :=
  match e with
  | Forbidden => then_process_commands st acts
  | _ => {| state := st; actions := acts; ending := Propagated e |}
  end.

(** Lines 84-103: the auto-repel block. *)
Definition auto_repel (fuel : nat) (P : Platform) (st : State)
    (message : Message) (guild : Guild) (unique : nat) : Handled :=
  let user_id := m_author_id message in
  let guild_id := g_id guild in
  let acts1 := [ActTimeout user_id (minutes 120)] in
  match member_timeout P user_id (minutes 120) with
  | Some e => except_forbidden st acts1 e
  | None =>
      let messages_to_delete :=
        get_user_messages P (message_cache st) guild user_id 50 in
      let acts2 := acts1 ++ [ActLocate guild_id user_id 50;
                             ActDelete messages_to_delete] in
      match delete_messages_efficiently fuel P messages_to_delete with
      | Returned deleted_count =>
          let st' := {| message_cache := message_cache st;
                        user_activity := reset (user_activity st) user_id guild_id |} in
          let acts3 := acts2 ++ [ActReset user_id guild_id;
                                 ActSummary (m_channel message) user_id unique
                                   deleted_count] in
          match channel_send P (m_channel message) with
          | None => then_process_commands st' acts3
          | Some e => except_forbidden st' acts3 e
          end
      | Raised e => except_forbidden st acts2 e
      | Unfinished => {| state := st; actions := acts2; ending := Stuck |}
      end
  end.

(** [on_message]; [now] is the clock read at line 74. A direct message
    has no guild: line 66 raises (an [AttributeError], no HTTPException). *)
Definition on_message (fuel : nat) (P : Platform) (now : Z) (st : State)
    (message : Message) : Handled :=
  if m_author_bot message then
    {| state := st; actions := []; ending := Completed |}
  else
    let cache' := record (message_cache st) message in
    match m_guild message with
    | None =>
        {| state := {| message_cache := cache';
                       user_activity := user_activity st |};
           actions := []; ending := Propagated OtherException |}
    | Some guild =>
        let user_id := m_author_id message in
        let guild_id := g_id guild in
        let channel_id := ch_id (m_channel message) in
        let timestamp := m_created_at message in
        let activity' :=
          observe now (user_activity st) user_id guild_id channel_id timestamp in
        let st' := {| message_cache := cache'; user_activity := activity' |} in
        let window := activity_of activity' user_id guild_id in
        if should_trigger window
        then auto_repel fuel P st' message guild (unique_channels window)
        else then_process_commands st' []
    end.

(** The interaction of a [repel] command, as the command reads it. *)
Record Interaction := {
  i_guild : Guild;
  i_user_manage_messages : bool;   (* interaction.user.guild_permissions *)
  i_bot_manage_messages : bool;    (* interaction.guild.me.guild_permissions *)
  i_bot_moderate_members : bool;
  i_channel : option Channel
}.

(** Lines 270-298: the reply that ends the command early, if any.
    [server_id] is the environment variable DISCORD_SERVER_ID. *)
Definition refusal (server_id : option string) (i : Interaction) : option string :=
  let restricted :=
    match server_id with
    | Some sid =>
        bool_decide (sid ≠ EmptyString) && bool_decide (sid ≠ "YOUR_SERVER_ID_HERE")
        && bool_decide (pretty (g_id (i_guild i)) ≠ sid)
    | None => false
    end in
  if restricted then Some "This bot is restricted to a specific server."
  else if negb (i_user_manage_messages i)
  then Some "You don't have permission to use this command!"
  else if negb (i_bot_manage_messages i)
  then Some "I need 'Manage Messages' permission!"
  else if negb (i_bot_moderate_members i)
  then Some "I need 'Moderate Members' permission!"
  else None.

(** [datetime.timedelta(minutes=m)]: the duration, or [None] for the
    [OverflowError] it raises when the number of days, [m // 1440], leaves
    the range from -999999999 to 999999999. *)
Definition timedelta_minutes (m : Z) : option Z :=
  if decide (-999999999 ≤ m `div` 1440 ≤ 999999999) then Some (minutes m)
  else None.

(** Lines 304-310: [timeout_user]. [inl] is its result, [inr] an exception
    that is no HTTPException and leaves it: the [OverflowError] of line 306,
    raised inside the [try] before any call, or one raised by the call. *)
Definition timeout_user (P : Platform) (user timeoutminutes : Z) : bool + exn :=
  match timedelta_minutes timeoutminutes with
  | None => inr OtherException
  | Some timeout_duration =>
      match member_timeout P user timeout_duration with
      | None => inl true
      | Some e => if is_HTTPException e then inl false else inr e
      end
  end.

(** Lines 323-329. *)
Definition build_response (timeout_success : bool) (user timeoutminutes : Z)
    (deleted_count : nat) : list ResponseLine :=
  [if timeout_success then TimedOut user timeoutminutes else CouldNotTimeout user;
   DeletedLine deleted_count].

(** Lines 332-337: send the summary. *)
Definition send_response (P : Platform) (i : Interaction)
    (acts : list Action) (response : list ResponseLine)
  : list Action * Ending :=
  let acts' := acts ++ [ActFollowup response] in
  match followup_send P with
  | None => (acts', Completed)
  | Some NotFound =>
      match i_channel i with
      | Some channel =>
          (acts' ++ [ActChannelSend channel response],
           match channel_send P channel with
           | None => Completed
           | Some e => Propagated e
           end)
      | None => (acts', Completed)
      end
  | Some e => (acts', Propagated e)
  end.

(** The [repel] command. The two tasks of lines 317-318 start in that
    order; the command reads the cache and leaves the state alone. When
    line 306 raises, [member.timeout] is not called, the deletion task runs
    all the same and the exception leaves the [gather] of line 320. *)
Definition repel (fuel : nat) (P : Platform) (server_id : option string)
    (cache : MessageCache) (i : Interaction)
    (user messagecount timeoutminutes : Z) : list Action * Ending :=
  match refusal server_id i with
  | Some text => ([ActEphemeral text], Completed)
  | None =>
      let messages_to_delete :=
        get_user_messages P cache (i_guild i) user messagecount in
      let timeout_call :=
        match timedelta_minutes timeoutminutes with
        | Some timeout_duration => [ActTimeout user timeout_duration]
        | None => []
        end in
      let acts := [ActDefer] ++ timeout_call
                    ++ [ActLocate (g_id (i_guild i)) user messagecount;
                        ActDelete messages_to_delete] in
      match timeout_user P user timeoutminutes,
            delete_messages_efficiently fuel P messages_to_delete with
      | inr e, _ => (acts, Propagated e)
      | _, Raised e => (acts, Propagated e)
      | _, Unfinished => (acts, Stuck)
      | inl timeout_success, Returned deleted_count =>
          send_response P i acts
            (build_response timeout_success user timeoutminutes deleted_count)
      end
  end.

(** ** A burst of the spammer across three channels *)

Definition empty_state : State := {| message_cache := []; user_activity := ∅ |}.

(** Message [id] of the spammer in [channel], created at [created]. *)
Definition post (id : Z) (channel : Channel) (created : Z) : Message :=
  {| m_id := id; m_author_id := spammer; m_author_bot := false;
     m_channel := channel; m_guild := Some server; m_created_at := created |}.

(** The state after the spammer posted in [general] and in [random], one
    second apart, each message handled at the time it was created. *)
Definition after_two_posts : State :=
  let st1 := state (on_message 0 obliging (seconds 1) empty_state
                      (post 1 general (seconds 1))) in
  state (on_message 0 obliging (seconds 2) st1 (post 2 random (seconds 2))).

(** The third post, in a third channel, one second later. *)
Definition third_post : Message := post 3 offtopic (seconds 3).

(** C7, on the code: with [limit = 0] and one cached message of the user,
    the cache phase appends the message before it compares the length with
    the limit and returns it: one candidate where at most 0 are allowed. A
    [repel] command with [messagecount = 0] deletes that message. *)
Theorem locator_exceeds_limit_zero :
  let cache := message_cache
                 (state (on_message 0 obliging (seconds 1) empty_state
                           (post 1 general (seconds 1)))) in
  let moderator := {| i_guild := server; i_user_manage_messages := true;
                      i_bot_manage_messages := true;
                      i_bot_moderate_members := true;
                      i_channel := Some general |} in
  get_user_messages obliging cache server spammer 0 = [(general, 1)]
  ∧ ¬ len (get_user_messages obliging cache server spammer 0) ≤ 0
  ∧ repel 0 obliging None cache moderator spammer 0 120 =
      ([ActDefer; ActTimeout spammer (minutes 120); ActLocate 1 spammer 0;
        ActDelete [(general, 1)];
        ActFollowup [TimedOut spammer 120; DeletedLine 1]], Completed).
Proof.
  split_and!; [reflexivity| |reflexivity].
  vm_compute. intros H. apply H. reflexivity.
Qed.

(** With 5 cached messages of the user, no readable channel and
    [limit = 20], the locator returns the 5 cached candidates. *)
Example locator_returns_fewer_than_limit :
  let unreadable :=
    {| read_message_history := λ _, false;
       history := history obliging;
       fetch_message := fetch_message obliging;
       delete_messages := delete_messages obliging;
       message_delete := message_delete obliging;
       member_timeout := member_timeout obliging;
       channel_send := channel_send obliging;
       followup_send := followup_send obliging;
       deletion_clock := deletion_clock obliging |} in
  let cache := foldl record [] ((λ id, post id general 0) <$> [1; 2; 3; 4; 5]) in
  get_user_messages unreadable cache server spammer 20 =
    (λ id, (general, id)) <$> [1; 2; 3; 4; 5].
Proof. reflexivity. Qed.

(** C10. For every message whose author is a bot, [on_message] returns at
    once: the state it leaves is the state it found, so the cached messages
    of every channel and the activity of every user and guild are the same,
    and it performs no action (no timeout, no deletion, no reset, no
    command processing). *)
Theorem bot_message_changes_nothing (fuel : nat) (P : Platform) (now : Z)
    (st : State) (message : Message) :
  m_author_bot message = true →
  let h := on_message fuel P now st message in
  h = {| state := st; actions := []; ending := Completed |}
  ∧ (∀ c, cached (message_cache (state h)) c = cached (message_cache st) c)
  ∧ (∀ u g, activity_of (user_activity (state h)) u g
            = activity_of (user_activity st) u g)
  ∧ actions h = [].
Proof.
  intros Hbot h. subst h. unfold on_message. rewrite Hbot. done.
Qed.

Lemma bot_message_changes_nothing_witness :
  let bot_post :=
    {| m_id := 4; m_author_id := 99; m_author_bot := true;
       m_channel := offtopic; m_guild := Some server;
       m_created_at := seconds 3 |} in
  on_message 0 obliging (seconds 3) after_two_posts bot_post =
    {| state := after_two_posts; actions := []; ending := Completed |}.
Proof.
  apply (bot_message_changes_nothing 0 obliging (seconds 3) after_two_posts).
  reflexivity.
Defined.

(** *** The order of the auto-repel block *)

Definition is_reset (a : Action) : bool :=
  match a with ActReset _ _ => true | _ => false end.
Definition is_timeout (a : Action) : bool :=
  match a with ActTimeout _ _ => true | _ => false end.
Definition is_locate (a : Action) : bool :=
  match a with ActLocate _ _ _ => true | _ => false end.
Definition is_delete (a : Action) : bool :=
  match a with ActDelete _ => true | _ => false end.
Definition is_summary (a : Action) : bool :=
  match a with ActSummary _ _ _ _ => true | _ => false end.

(** Some action satisfying [p] comes before some action satisfying [q]. *)
Fixpoint occurs_before (p q : Action → bool) (acts : list Action) : bool :=
  match acts with
  | [] => false
  | a :: rest => (p a && existsb q rest) || occurs_before p q rest
  end.

Definition count_resets (acts : list Action) : nat :=
  length (filter (λ a, is_reset a) acts).

(** The reading of the spec: one reset, before the timeout and before the
    locator. *)
Definition reset_comes_first (acts : list Action) : Prop :=
  count_resets acts = 1%nat
  ∧ occurs_before is_reset is_timeout acts = true
  ∧ occurs_before is_reset is_locate acts = true.

(** C2 as stated fails: the third post of the burst triggers the
    auto-repel; on the obliging platform the reset comes fourth, after the timeout, the locator and the
    deletion. *)
Lemma reset_does_not_come_first :
  let h := on_message 0 obliging (seconds 3) after_two_posts third_post in
  actions h =
    [ActTimeout spammer (minutes 120); ActLocate 1 spammer 50;
     ActDelete [(general, 1); (random, 2); (offtopic, 3)];
     ActReset spammer 1; ActSummary offtopic spammer 3 3; ActProcessCommands]
  ∧ ¬ reset_comes_first (actions h).
Proof.
  split; [reflexivity|].
  intros (_ & Hbefore & _). vm_compute in Hbefore. discriminate Hbefore.
Qed.

(** C2, amended. On every auto-trigger in which the timeout succeeds and
    the deletion pipeline returns, [on_message] first times the author out,
    then calls the locator with the fixed limit of 50, then the deletion
    pipeline on what the locator found, and only then resets the author's
    window for the guild, exactly once, before it sends the summary; the
    window is empty afterwards. *)
Theorem auto_repel_resets_once_after_deletion (fuel : nat) (P : Platform)
    (now : Z) (st : State) (message : Message) (guild : Guild)
    (deleted_count : nat) :
  let user := m_author_id message in
  let window :=
    activity_of (observe now (user_activity st) user (g_id guild)
                   (ch_id (m_channel message)) (m_created_at message))
      user (g_id guild) in
  let found :=
    get_user_messages P (record (message_cache st) message) guild user 50 in
  m_author_bot message = false →
  m_guild message = Some guild →
  should_trigger window = true →
  member_timeout P user (minutes 120) = None →
  delete_messages_efficiently fuel P found = Returned deleted_count →
  let h := on_message fuel P now st message in
  (∃ tail,
     actions h =
       [ActTimeout user (minutes 120); ActLocate (g_id guild) user 50;
        ActDelete found; ActReset user (g_id guild);
        ActSummary (m_channel message) user (unique_channels window)
          deleted_count] ++ tail
     ∧ (tail = [] ∨ tail = [ActProcessCommands]))
  ∧ count_resets (actions h) = 1%nat
  ∧ activity_of (user_activity (state h)) user (g_id guild) = [].
Proof.
  intros user window found Hbot Hguild Htrig Htimeout Hdel h.
  assert (Hh : ∃ tail,
     (tail = [] ∨ tail = [ActProcessCommands])
     ∧ actions h =
       [ActTimeout user (minutes 120); ActLocate (g_id guild) user 50;
        ActDelete found; ActReset user (g_id guild);
        ActSummary (m_channel message) user (unique_channels window)
          deleted_count] ++ tail
     ∧ activity_of (user_activity (state h)) user (g_id guild) = []).
  { subst h. unfold on_message. rewrite Hbot, Hguild. cbv zeta.
    fold user. fold window. rewrite Htrig.
    unfold auto_repel. cbn [message_cache user_activity m_author_id].
    fold user. rewrite Htimeout. fold found. rewrite Hdel.
    destruct (channel_send P (m_channel message)) as [[]|];
      [exists [ActProcessCommands]|exists []..|exists [ActProcessCommands]];
      cbn; (split_and!; [by auto|done|]);
      unfold reset; apply activity_of_set. }
  destruct Hh as (tail & Htail & Hacts & Hwin).
  split_and!; [by exists tail| |done].
  rewrite Hacts. destruct Htail as [-> | ->]; reflexivity.
Qed.

Lemma auto_repel_resets_once_after_deletion_witness :
  let h := on_message 0 obliging (seconds 3) after_two_posts third_post in
  count_resets (actions h) = 1%nat
  ∧ activity_of (user_activity (state h)) spammer 1 = [].
Proof.
  apply (auto_repel_resets_once_after_deletion 0 obliging (seconds 3)
           after_two_posts third_post server 3%nat); reflexivity.
Defined.

(** *** A refused timeout *)

(** The reading of the spec: the handler goes on to delete and to report. *)
Definition deletes_and_reports (acts : list Action) : Prop :=
  existsb is_delete acts = true ∧ existsb is_summary acts = true.

(** C3 as stated fails: the third post of the burst triggers the
    auto-repel; when the timeout is refused with [Forbidden], nothing is deleted, nothing is reported
    and the window is not reset. *)
Lemma refused_timeout_ends_auto_repel :
  let h := on_message 0 timeout_forbidden (seconds 3) after_two_posts third_post in
  should_trigger (activity_of (user_activity (state h)) spammer 1) = true
  ∧ member_timeout timeout_forbidden spammer (minutes 120) = Some Forbidden
  ∧ actions h = [ActTimeout spammer (minutes 120); ActProcessCommands]
  ∧ ¬ deletes_and_reports (actions h).
Proof.
  split_and!; [reflexivity..|].
  intros [Hdel _]. vm_compute in Hdel. discriminate Hdel.
Qed.

(** C3, amended. For every [repel] command that passes its checks, whose
    timeout duration [timedelta] can represent and whose deletion pipeline
    returns: a timeout that fails with an HTTP error, [Forbidden] included,
    makes [timeout_user] return false, and the command still locates,
    deletes and sends the summary, with the line for the failed timeout and
    the deleted count. On an auto-trigger, a timeout
    refused with [Forbidden] does not leave [on_message] either, which then
    goes on to the commands without deleting, resetting or reporting. *)
Theorem refused_timeout_is_absorbed (fuel : nat) (P : Platform) :
  (∀ server_id cache i user messagecount timeoutminutes e deleted_count,
     let found := get_user_messages P cache (i_guild i) user messagecount in
     refusal server_id i = None →
     -999999999 ≤ timeoutminutes `div` 1440 ≤ 999999999 →
     member_timeout P user (minutes timeoutminutes) = Some e →
     is_HTTPException e = true →
     delete_messages_efficiently fuel P found = Returned deleted_count →
     timeout_user P user timeoutminutes = inl false
     ∧ ∃ tail,
         (repel fuel P server_id cache i user messagecount timeoutminutes).1 =
           [ActDefer; ActTimeout user (minutes timeoutminutes);
            ActLocate (g_id (i_guild i)) user messagecount; ActDelete found;
            ActFollowup [CouldNotTimeout user; DeletedLine deleted_count]]
           ++ tail)
  ∧ (∀ now st message guild,
       let user := m_author_id message in
       let tracked :=
         observe now (user_activity st) user (g_id guild)
           (ch_id (m_channel message)) (m_created_at message) in
       m_author_bot message = false →
       m_guild message = Some guild →
       should_trigger (activity_of tracked user (g_id guild)) = true →
       member_timeout P user (minutes 120) = Some Forbidden →
       on_message fuel P now st message =
         {| state := {| message_cache := record (message_cache st) message;
                        user_activity := tracked |};
            actions := [ActTimeout user (minutes 120); ActProcessCommands];
            ending := Completed |}).
Proof.
  split.
  - intros server_id cache i user messagecount timeoutminutes e deleted_count
      found Hok Hrange Htimeout Hhttp Hdel.
    assert (Hdelta : timedelta_minutes timeoutminutes
                     = Some (minutes timeoutminutes)).
    { unfold timedelta_minutes. by rewrite decide_True by done. }
    assert (Ht : timeout_user P user timeoutminutes = inl false).
    { unfold timeout_user. by rewrite Hdelta, Htimeout, Hhttp. }
    split; [exact Ht|].
    unfold repel. rewrite Hok. fold found. rewrite Ht, Hdel, Hdelta.
    unfold send_response, build_response.
    destruct (followup_send P) as [[]|]; try (by exists []).
    destruct (i_channel i) as [channel|]; [|by exists []].
    by eexists.
  - intros now st message guild user tracked Hbot Hguild Htrig Htimeout.
    unfold on_message. rewrite Hbot, Hguild. cbv zeta.
    fold user. fold tracked. rewrite Htrig.
    unfold auto_repel. cbn [m_author_id]. fold user. by rewrite Htimeout.
Qed.

Lemma refused_timeout_is_absorbed_witness :
  let moderator := {| i_guild := server; i_user_manage_messages := true;
                      i_bot_manage_messages := true;
                      i_bot_moderate_members := true;
                      i_channel := Some general |} in
  (∃ tail,
     (repel 0 timeout_forbidden None (message_cache after_two_posts) moderator
        spammer 100 120).1 =
       [ActDefer; ActTimeout spammer (minutes 120); ActLocate 1 spammer 100;
        ActDelete [(general, 1); (random, 2)];
        ActFollowup [CouldNotTimeout spammer; DeletedLine 2]] ++ tail)
  ∧ actions (on_message 0 timeout_forbidden (seconds 3) after_two_posts
               third_post)
    = [ActTimeout spammer (minutes 120); ActProcessCommands].
Proof.
  intros moderator.
  pose proof (refused_timeout_is_absorbed 0 timeout_forbidden) as [Hrepel Hauto].
  split.
  - destruct (Hrepel None (message_cache after_two_posts) moderator spammer
                100 120 Forbidden 2%nat eq_refl
                ltac:(split; vm_compute; discriminate)
                eq_refl eq_refl eq_refl)
      as [_ [tail Htail]].
    exists tail. exact Htail.
  - rewrite (Hauto (seconds 3) after_two_posts third_post server
               eq_refl eq_refl eq_refl eq_refl).
    reflexivity.
Defined.

(** * Further properties of the code *)

(** ** The message cache as a dictionary *)

Lemma record_nil (m : Message) :
  record [] m = [(ch_id (m_channel m), [cache_entry m])].
Proof.
  unfold record. cbn [dict_get dict_set].
  rewrite decide_True by done. cbn [dict_set].
  rewrite decide_True by done. unfold deque_append, max_cache_size.
  rewrite decide_False by (simpl; lia). done.
Qed.

Lemma record_cons (k : Z) (v : list CachedMessage) (cache : MessageCache)
    (m : Message) :
  record ((k, v) :: cache) m =
    if decide (ch_id (m_channel m) = k)
    then (k, deque_append max_cache_size v (cache_entry m)) :: cache
    else (k, v) :: record cache m.
Proof.
  unfold record. cbn [dict_get].
  destruct (decide (ch_id (m_channel m) = k)) as [->|Hne].
  - cbn [dict_get dict_set]. by rewrite !decide_True by done.
  - destruct (dict_get (ch_id (m_channel m)) cache) as [d|] eqn:Hd.
    + cbn [dict_get dict_set]. rewrite !decide_False by done.
      rewrite !Hd. cbn [dict_set]. by rewrite decide_False by done.
    + cbn [dict_get dict_set]. rewrite !decide_False by done.
      cbn [dict_get]. rewrite decide_False by done.
      rewrite !dict_get_set_eq. cbn [dict_set]. by rewrite decide_False by done.
Qed.

Lemma record_keys (cache : MessageCache) (m : Message) :
  (record cache m).*1 =
    if decide (ch_id (m_channel m) ∈ cache.*1) then cache.*1
    else cache.*1 ++ [ch_id (m_channel m)].
Proof.
  induction cache as [|[k v] cache IH].
  - rewrite record_nil. rewrite decide_False by apply not_elem_of_nil. done.
  - rewrite record_cons. cbn [fmap list_fmap fst].
    destruct (decide (ch_id (m_channel m) = k)) as [->|Hne].
    + rewrite decide_True by apply list_elem_of_here. done.
    + cbn [fmap list_fmap fst]. rewrite IH.
      destruct (decide (ch_id (m_channel m) ∈ cache.*1)) as [Hin|Hnin].
      * rewrite decide_True by (by apply list_elem_of_further). done.
      * rewrite decide_False; [done|].
        rewrite elem_of_cons. intros [?|?]; done.
Qed.

(** X1. The cache creates the deque of a channel at the first message seen
    in it: after any sequence of recorded messages, the dictionary has one
    key per channel in which a message arrived, no key twice, and no other
    key. *)
Theorem cache_has_one_deque_per_seen_channel (ms : list Message) :
  let cache := foldl record [] ms in
  NoDup (cache.*1)
  ∧ ∀ c, c ∈ cache.*1 ↔ ∃ m, m ∈ ms ∧ ch_id (m_channel m) = c.
Proof.
  induction ms as [|m ms IH] using rev_ind.
  - split; [constructor|]. intros c. split.
    + intros H. by apply elem_of_nil in H.
    + intros (m & H & _). by apply elem_of_nil in H.
  - cbv zeta in *. rewrite foldl_app. cbn [foldl].
    destruct IH as [Hnd Hkeys]. rewrite record_keys.
    destruct (decide (ch_id (m_channel m) ∈ (foldl record [] ms).*1))
      as [Hin|Hnin].
    + split; [done|]. intros c. rewrite Hkeys. split.
      * intros (m' & Hm' & <-). exists m'. split; [|done].
        apply elem_of_app. by left.
      * intros (m' & Hm' & <-). apply elem_of_app in Hm' as [Hm'|Hm'].
        -- by exists m'.
        -- apply list_elem_of_singleton in Hm' as ->. by apply Hkeys.
    + split.
      * apply NoDup_app. split_and!; [done| |apply NoDup_singleton].
        intros c Hc Hc'. apply list_elem_of_singleton in Hc' as ->. done.
      * intros c. rewrite elem_of_app, Hkeys, list_elem_of_singleton. split.
        -- intros [(m' & Hm' & <-)| ->].
           ++ exists m'. split; [|done]. apply elem_of_app. by left.
           ++ exists m. split; [|done]. apply elem_of_app. right.
              by apply list_elem_of_singleton.
        -- intros (m' & Hm' & <-). apply elem_of_app in Hm' as [Hm'|Hm'].
           ++ left. by exists m'.
           ++ apply list_elem_of_singleton in Hm' as ->. by right.
Qed.

(** X2. Recording a message touches the deque of its own channel only:
    what the cache holds for any other channel is unchanged. *)
Theorem record_leaves_other_channels (cache : MessageCache) (m : Message)
    (c : Z) :
  ch_id (m_channel m) ≠ c →
  dict_get c (record cache m) = dict_get c cache.
Proof.
  intros Hne. unfold record.
  destruct (dict_get (ch_id (m_channel m)) cache) as [d|] eqn:Hd.
  - rewrite Hd. by rewrite dict_get_set_ne.
  - rewrite dict_get_set_eq. by rewrite !dict_get_set_ne.
Qed.

Lemma record_leaves_other_channels_witness :
  dict_get 10 (record (message_cache after_two_posts) third_post)
  = dict_get 10 (message_cache after_two_posts).
Proof.
  apply (record_leaves_other_channels (message_cache after_two_posts)
           third_post 10).
  vm_compute. discriminate.
Defined.

(** Every entry the cache holds, channel after channel. *)
Definition all_entries (cache : MessageCache) : list CachedMessage :=
  concat (cache.*2).

Lemma deque_append_submseteq {A} (n : nat) (d : list A) (x : A) :
  deque_append n d x ⊆+ x :: d.
Proof.
  unfold deque_append.
  destruct (decide (n < length (d ++ [x]))%nat).
  - etrans; [apply sublist_submseteq, sublist_drop|].
    apply Permutation_submseteq. by rewrite Permutation_app_comm.
  - apply Permutation_submseteq. by rewrite Permutation_app_comm.
Qed.

Lemma all_entries_record (cache : MessageCache) (m : Message) :
  all_entries (record cache m) ⊆+ cache_entry m :: all_entries cache.
Proof.
  unfold all_entries. induction cache as [|[k v] cache IH].
  - rewrite record_nil. simpl. done.
  - rewrite record_cons.
    destruct (decide (ch_id (m_channel m) = k)) as [Heq|Hne];
      cbn [fmap list_fmap snd concat].
    + change (cache_entry m :: v ++ concat cache.*2)
        with ((cache_entry m :: v) ++ concat cache.*2).
      apply submseteq_skips_r, deque_append_submseteq.
    + etrans; [apply submseteq_skips_l, IH|].
      apply Permutation_submseteq. by rewrite Permutation_middle.
Qed.

Lemma submseteq_NoDup {A} (l k : list A) : l ⊆+ k → NoDup k → NoDup l.
Proof.
  intros Hsub Hnd. apply submseteq_Permutation in Hsub as [k' Hk'].
  rewrite Hk' in Hnd. by apply NoDup_app in Hnd as (? & _).
Qed.

Lemma all_entries_foldl_record (ms : list Message) :
  cm_id <$> all_entries (foldl record [] ms) ⊆+ m_id <$> ms.
Proof.
  induction ms as [|m ms IH] using rev_ind; [done|].
  rewrite foldl_app. cbn [foldl].
  etrans; [apply fmap_submseteq, all_entries_record|].
  rewrite fmap_cons, fmap_app. cbn [fmap list_fmap cache_entry cm_id].
  rewrite <- Permutation_cons_append. by apply submseteq_skip.
Qed.

Lemma cached_candidates_sublist (guild : Guild) (user : Z) (cache : MessageCache) :
  ids_of (cached_candidates guild user cache)
    `sublist_of` cm_id <$> all_entries cache.
Proof.
  unfold all_entries. induction cache as [|[k v] cache IH]; [done|].
  cbn [cached_candidates fmap list_fmap snd concat]. rewrite fmap_app.
  destruct (get_channel guild k) as [channel|];
    [|by apply sublist_inserts_l].
  destruct (decide (ch_guild_id channel = g_id guild));
    [|by apply sublist_inserts_l].
  rewrite ids_of_app. apply sublist_app; [|done].
  unfold ids_of, channel_candidates. rewrite <- list_fmap_compose.
  apply fmap_sublist, sublist_filter.
Qed.

(** X3. When the messages the bot has seen carry pairwise different ids,
    the locator returns no message id twice, for every guild, user, limit
    and answer of the channel histories. *)
Theorem locator_returns_no_id_twice (P : Platform) (ms : list Message)
    (guild : Guild) (user limit : Z) :
  NoDup (m_id <$> ms) →
  NoDup (ids_of (get_user_messages P (foldl record [] ms) guild user limit)).
Proof.
  intros Hnd. apply get_user_messages_NoDup.
  eapply sublist_NoDup; [|apply cached_candidates_sublist].
  apply (submseteq_NoDup _ _ (all_entries_foldl_record ms) Hnd).
Qed.

Lemma locator_returns_no_id_twice_witness :
  NoDup (ids_of (get_user_messages obliging
                   (foldl record [] [post 1 general 0; post 2 random 0])
                   server spammer 50)).
Proof.
  apply (locator_returns_no_id_twice obliging
           [post 1 general 0; post 2 random 0] server spammer 50).
  vm_compute. repeat constructor; rewrite ?elem_of_cons, ?elem_of_nil;
    intuition discriminate.
Defined.

(** ** The activity tracker *)

(** X4. An observation for one user and guild leaves the window of every
    other user or guild as it was. *)
Theorem observe_leaves_other_windows (now : Z) (ua : Activity)
    (u g ch ts u' g' : Z) :
  (u, g) ≠ (u', g') →
  activity_of (observe now ua u g ch ts) u' g' = activity_of ua u' g'.
Proof.
  intros Hne. unfold observe, clean_old, track.
  by rewrite !activity_of_set_ne.
Qed.

Lemma observe_leaves_other_windows_witness :
  activity_of (observe (seconds 3) (user_activity after_two_posts)
                 8 1 12 (seconds 3)) spammer 1
  = activity_of (user_activity after_two_posts) spammer 1.
Proof.
  apply (observe_leaves_other_windows (seconds 3)
           (user_activity after_two_posts) 8 1 12 (seconds 3) spammer 1).
  vm_compute. discriminate.
Defined.

Lemma length_remove_dups_le (l : list Z) :
  (length (remove_dups l) ≤ length l)%nat.
Proof.
  induction l as [|x l IH]; simpl; [done|].
  destruct (decide_rel elem_of x l); simpl; lia.
Qed.

Lemma should_trigger_short (w : list (Z * Z)) :
  (length w < 3)%nat → should_trigger w = false.
Proof.
  intros Hlen. unfold should_trigger. apply bool_decide_eq_false.
  rewrite unique_channels_distinct. unfold distinct_count.
  pose proof (length_remove_dups_le (w.*1)) as Hle.
  rewrite length_fmap in Hle. lia.
Qed.

(** X5. After a reset of a user's window, neither the next observation of
    that user in the guild nor the one after it can meet the auto-repel
    condition, whatever their channels, timestamps and clocks. *)
Theorem no_trigger_right_after_reset (ua : Activity)
    (u g now1 ch1 ts1 now2 ch2 ts2 : Z) :
  let ua1 := observe now1 (reset ua u g) u g ch1 ts1 in
  let ua2 := observe now2 ua1 u g ch2 ts2 in
  should_trigger (activity_of ua1 u g) = false
  ∧ should_trigger (activity_of ua2 u g) = false.
Proof.
  intros ua1 ua2.
  assert (H1 : (length (activity_of ua1 u g) ≤ 1)%nat).
  { subst ua1. rewrite activity_of_observe. unfold reset.
    rewrite activity_of_set. etrans; [apply length_filter|]. simpl. lia. }
  assert (H2 : (length (activity_of ua2 u g) ≤ 2)%nat).
  { subst ua2. rewrite activity_of_observe.
    etrans; [apply length_filter|]. rewrite length_app. simpl. lia. }
  split; apply should_trigger_short; lia.
Qed.

(** ** [on_message] *)

Lemma auto_repel_keeps_cache fuel P st message guild unique :
  message_cache (state (auto_repel fuel P st message guild unique))
  = message_cache st.
Proof.
  unfold auto_repel, except_forbidden, then_process_commands.
  repeat case_match; reflexivity.
Qed.

Lemma auto_repel_absorbs_forbidden fuel P st message guild unique e :
  ending (auto_repel fuel P st message guild unique) = Propagated e →
  e ≠ Forbidden.
Proof.
  unfold auto_repel, except_forbidden, then_process_commands.
  repeat case_match; cbn [ending]; intros [= <-]; discriminate.
Qed.

(** X6. Every message that is not a bot's is in the cache when
    [on_message] is left, however it is left: also when the message is a
    direct message and line 66 raises, when the auto-repel raises, and when
    the deletion never returns. *)
Theorem on_message_always_caches (fuel : nat) (P : Platform) (now : Z)
    (st : State) (message : Message) :
  m_author_bot message = false →
  message_cache (state (on_message fuel P now st message))
  = record (message_cache st) message.
Proof.
  intros Hbot. unfold on_message. rewrite Hbot.
  destruct (m_guild message) as [guild|]; [|done].
  cbv zeta. destruct (should_trigger _); [|done].
  by rewrite auto_repel_keeps_cache.
Qed.

Lemma on_message_always_caches_witness :
  let direct := {| m_id := 9; m_author_id := spammer; m_author_bot := false;
                   m_channel := general; m_guild := None;
                   m_created_at := seconds 3 |} in
  message_cache (state (on_message 0 obliging (seconds 3) after_two_posts direct))
  = record (message_cache after_two_posts) direct.
Proof.
  intros direct.
  apply (on_message_always_caches 0 obliging (seconds 3) after_two_posts direct).
  reflexivity.
Defined.

(** X7. [discord.Forbidden] never leaves [on_message]: whatever exception
    the handler propagates is another one. *)
Theorem on_message_absorbs_forbidden (fuel : nat) (P : Platform) (now : Z)
    (st : State) (message : Message) (e : exn) :
  ending (on_message fuel P now st message) = Propagated e →
  e ≠ Forbidden.
Proof.
  unfold on_message. destruct (m_author_bot message); [done|].
  destruct (m_guild message) as [guild|]; [|by intros [= <-]].
  cbv zeta. destruct (should_trigger _); [|done].
  apply auto_repel_absorbs_forbidden.
Qed.

(** The platform on which the timeout fails with a server error. *)
Definition timeout_unavailable : Platform :=
  {| read_message_history := read_message_history obliging;
     history := history obliging;
     fetch_message := fetch_message obliging;
     delete_messages := delete_messages obliging;
     message_delete := message_delete obliging;
     member_timeout := λ _ _, Some (HTTPException 503 None);
     channel_send := channel_send obliging;
     followup_send := followup_send obliging;
     deletion_clock := deletion_clock obliging |}.

Lemma on_message_absorbs_forbidden_witness :
  ending (on_message 0 timeout_unavailable (seconds 3) after_two_posts
            third_post) = Propagated (HTTPException 503 None)
  ∧ HTTPException 503 None ≠ Forbidden.
Proof.
  split; [reflexivity|].
  apply (on_message_absorbs_forbidden 0 timeout_unavailable (seconds 3)
           after_two_posts third_post (HTTPException 503 None)).
  reflexivity.
Defined.

(** X8. An author with fewer than two entries younger than 30 seconds in
    the window of the guild is not auto-repelled by the next message:
    [on_message] records and tracks the message and goes on to the
    commands, with no timeout, deletion or reset. *)
Theorem quiet_author_is_not_repelled (fuel : nat) (P : Platform) (now : Z)
    (st : State) (message : Message) (guild : Guild) :
  let user := m_author_id message in
  let prior := activity_of (user_activity st) user (g_id guild) in
  m_author_bot message = false →
  m_guild message = Some guild →
  (length (filter (λ e, (now - seconds 30 < e.2)%Z) prior) < 2)%nat →
  on_message fuel P now st message =
    {| state := {| message_cache := record (message_cache st) message;
                   user_activity :=
                     observe now (user_activity st) user (g_id guild)
                       (ch_id (m_channel message)) (m_created_at message) |};
       actions := [ActProcessCommands];
       ending := Completed |}.
Proof.
  intros user prior Hbot Hguild Hquiet.
  unfold on_message. rewrite Hbot, Hguild. cbv zeta. fold user.
  rewrite should_trigger_short; [done|].
  rewrite activity_of_observe. fold prior. rewrite filter_app, length_app.
  pose proof (length_filter (λ e : Z * Z, now - seconds 30 < e.2)
                [(ch_id (m_channel message), m_created_at message)]) as Hle.
  simpl in Hle. lia.
Qed.

Lemma quiet_author_is_not_repelled_witness :
  actions (on_message 0 obliging (seconds 100) after_two_posts
             (post 3 offtopic (seconds 100)))
  = [ActProcessCommands].
Proof.
  rewrite (quiet_author_is_not_repelled 0 obliging (seconds 100)
             after_two_posts (post 3 offtopic (seconds 100)) server);
    [reflexivity|reflexivity|reflexivity|vm_compute; lia].
Defined.

Definition is_repelling (a : Action) : bool := is_timeout a || is_delete a.

(** X9. [on_message] times a member out or deletes messages only on a
    burst: the author is no bot, the message has a guild, and the author's
    window for that guild, after this message was tracked, holds only
    entries younger than 30 seconds, in three different channels. *)
Theorem auto_repel_only_on_burst (fuel : nat) (P : Platform) (now : Z)
    (st : State) (message : Message) :
  existsb is_repelling (actions (on_message fuel P now st message)) = true →
  m_author_bot message = false
  ∧ ∃ guild,
      m_guild message = Some guild
      ∧ let window :=
          activity_of
            (observe now (user_activity st) (m_author_id message) (g_id guild)
               (ch_id (m_channel message)) (m_created_at message))
            (m_author_id message) (g_id guild) in
        Forall (λ e, now - seconds 30 < e.2) window
        ∧ ∃ a b c, a ≠ b ∧ a ≠ c ∧ b ≠ c
                   ∧ a ∈ window.*1 ∧ b ∈ window.*1 ∧ c ∈ window.*1.
Proof.
  unfold on_message. destruct (m_author_bot message); [done|].
  destruct (m_guild message) as [guild|]; [|done].
  cbv zeta. destruct (should_trigger _) eqn:Htrig; [|done].
  intros _. split; [done|]. exists guild. split; [done|]. split.
  - rewrite activity_of_observe. apply Forall_forall. intros e He.
    by apply list_elem_of_filter in He as [? _].
  - apply three_distinct. rewrite <- unique_channels_distinct.
    unfold should_trigger in Htrig. by apply bool_decide_eq_true in Htrig.
Qed.

Lemma auto_repel_only_on_burst_witness :
  m_author_bot third_post = false
  ∧ ∃ guild,
      m_guild third_post = Some guild
      ∧ let window :=
          activity_of
            (observe (seconds 3) (user_activity after_two_posts)
               (m_author_id third_post) (g_id guild)
               (ch_id (m_channel third_post)) (m_created_at third_post))
            (m_author_id third_post) (g_id guild) in
        Forall (λ e, seconds 3 - seconds 30 < e.2) window
        ∧ ∃ a b c, a ≠ b ∧ a ≠ c ∧ b ≠ c
                   ∧ a ∈ window.*1 ∧ b ∈ window.*1 ∧ c ∈ window.*1.
Proof.
  apply (auto_repel_only_on_burst 0 obliging (seconds 3) after_two_posts
           third_post).
  reflexivity.
Defined.

(** ** The [repel] command *)

(** X10. The [repel] command times a member out or deletes messages only
    when the invoking user has Manage Messages, the bot has Manage Messages
    and Moderate Members, and, when the bot is configured for one server
    (a server id that is neither empty nor the placeholder), the command
    comes from the guild with that id. *)
Theorem repel_acts_only_when_authorized (fuel : nat) (P : Platform)
    (server_id : option string) (cache : MessageCache) (i : Interaction)
    (user messagecount timeoutminutes : Z) :
  existsb is_repelling
    (repel fuel P server_id cache i user messagecount timeoutminutes).1 = true →
  i_user_manage_messages i = true
  ∧ i_bot_manage_messages i = true
  ∧ i_bot_moderate_members i = true
  ∧ ∀ sid, server_id = Some sid → sid ≠ EmptyString →
           sid ≠ "YOUR_SERVER_ID_HERE" → pretty (g_id (i_guild i)) = sid.
Proof.
  unfold repel. destruct (refusal server_id i) as [text|] eqn:Href; [done|].
  intros _. unfold refusal in Href.
  destruct (i_user_manage_messages i), (i_bot_manage_messages i),
    (i_bot_moderate_members i); cbn [negb] in Href;
    try (by repeat case_match).
  split_and!; [done..|].
  intros sid -> Hne Hph.
  rewrite !bool_decide_eq_true_2 in Href by done. cbn [andb] in Href.
  destruct (bool_decide (pretty (g_id (i_guild i)) ≠ sid)) eqn:Hd; [done|].
  apply bool_decide_eq_false in Hd. by destruct (decide (pretty (g_id (i_guild i)) = sid)).
Qed.

Lemma repel_acts_only_when_authorized_witness :
  let moderator := {| i_guild := server; i_user_manage_messages := true;
                      i_bot_manage_messages := true;
                      i_bot_moderate_members := true;
                      i_channel := Some general |} in
  i_user_manage_messages moderator = true
  ∧ i_bot_manage_messages moderator = true
  ∧ i_bot_moderate_members moderator = true.
Proof.
  intros moderator.
  pose proof (repel_acts_only_when_authorized 0 obliging (Some "1"%string)
                (message_cache after_two_posts) moderator spammer 100 120
                eq_refl) as (H1 & H2 & H3 & _).
  by split_and!.
Defined.

(** ** The locator *)

Lemma scan_cached_inl_full user limit channel cached_msgs messages existing_ids r :
  scan_cached user limit channel cached_msgs messages existing_ids = inl r →
  limit ≤ len r.
Proof.
  revert messages existing_ids.
  induction cached_msgs as [|msg_data rest IH]; intros messages existing_ids;
    simpl; [done|].
  destruct (decide (cm_author_id msg_data = user)); [|apply IH].
  destruct (decide (limit ≤ len (messages ++ [(channel, cm_id msg_data)])));
    [by intros [= <-]|apply IH].
Qed.

Lemma scan_cache_inl_full guild user limit cache messages existing_ids r :
  scan_cache guild user limit cache messages existing_ids = inl r →
  limit ≤ len r.
Proof.
  revert messages existing_ids.
  induction cache as [|[channel_id cached_msgs] rest IH];
    intros messages existing_ids; simpl; [done|].
  destruct (get_channel guild channel_id) as [channel|]; [|apply IH].
  destruct (decide (ch_guild_id channel = g_id guild)); [|apply IH].
  destruct (scan_cached user limit channel cached_msgs messages existing_ids)
    as [r'|[m ids]] eqn:Hs.
  - intros [= <-]. by eapply scan_cached_inl_full.
  - apply IH.
Qed.

(** X11. When the cache holds at least [limit ≥ 1] messages of the user in
    the guild, the locator returns the first [limit] of them, in cache
    order, whatever the platform would answer: the channel histories are
    not consulted. *)
Theorem locator_is_served_from_cache (P : Platform) (cache : MessageCache)
    (guild : Guild) (user limit : Z) :
  1 ≤ limit →
  limit ≤ len (cached_candidates guild user cache) →
  get_user_messages P cache guild user limit =
    take (Z.to_nat limit) (cached_candidates guild user cache).
Proof.
  intros Hpos Henough. unfold get_user_messages.
  pose proof (scan_cache_spec guild user limit cache [] ∅) as Hspec.
  pose proof (scan_cache_bound guild user limit cache [] ∅) as Hbound.
  pose proof (scan_cache_inl_full guild user limit cache [] ∅) as Hfull.
  destruct (scan_cache guild user limit cache [] ∅) as [r|[m ids]].
  - destruct Hspec as [rest Hrest]. simpl in Hrest.
    assert (Hlen : len r = limit).
    { specialize (Hfull r eq_refl).
      assert (len r ≤ Z.max limit 1) by (apply Hbound; unfold len; simpl; lia).
      lia. }
    rewrite Hrest. symmetry. apply take_app_length'. unfold len in Hlen. lia.
  - destruct Hspec as [-> _]. simpl in Hbound.
    assert (len (cached_candidates guild user cache) < Z.max limit 1)
      by (apply Hbound; unfold len; simpl; lia).
    lia.
Qed.

Lemma locator_is_served_from_cache_witness :
  get_user_messages always_rate_limited (message_cache after_two_posts)
    server spammer 2 =
  take (Z.to_nat 2)
    (cached_candidates server spammer (message_cache after_two_posts)).
Proof.
  apply (locator_is_served_from_cache always_rate_limited
           (message_cache after_two_posts) server spammer 2).
  - lia.
  - vm_compute. discriminate.
Defined.

Lemma elem_of_concat_2 {A} (x : A) (l : list A) (ls : list (list A)) :
  l ∈ ls → x ∈ l → x ∈ concat ls.
Proof.
  induction ls as [|l' ls IH]; intros Hl Hx.
  - by apply elem_of_nil in Hl.
  - simpl. apply elem_of_app. apply elem_of_cons in Hl as [->|Hl]; auto.
Qed.

Lemma gather_search_unreadable P user remaining batch existing_ids :
  (∀ c, c ∈ batch → read_message_history P c = false) →
  gather_search P user remaining batch existing_ids
  = (replicate (length batch) [], existing_ids).
Proof.
  induction batch as [|channel rest IH]; intros Hun; [done|].
  simpl. unfold search_channel.
  rewrite (Hun channel) by apply list_elem_of_here.
  rewrite IH; [done|]. intros c Hc. apply Hun. by apply list_elem_of_further.
Qed.

Lemma collect_nothing limit n (messages : list Candidate) :
  len messages < limit → collect limit (replicate n []) messages = messages.
Proof.
  intros Hlt. induction n as [|n IH]; [done|].
  simpl. rewrite app_nil_r. by rewrite decide_False by lia.
Qed.

Lemma search_batches_unreadable P user remaining limit batches messages existing_ids :
  (∀ batch c, batch ∈ batches → c ∈ batch → read_message_history P c = false) →
  len messages < limit →
  search_batches P user remaining limit batches messages existing_ids = messages.
Proof.
  intros Hun Hlt. induction batches as [|batch rest IH]; [done|].
  simpl. rewrite gather_search_unreadable
    by (intros c Hc; eapply Hun; [apply list_elem_of_here|done]).
  rewrite collect_nothing by done. rewrite decide_False by lia.
  apply IH. intros b c Hb Hc. eapply Hun; [by apply list_elem_of_further|done].
Qed.

(** X12. When the bot may read the history of no text channel of the guild
    and the cache holds fewer than [limit] messages of the user, the
    locator returns exactly the cached ones: fewer than [limit], and no
    error. *)
Theorem locator_without_readable_history (P : Platform) (cache : MessageCache)
    (guild : Guild) (user limit : Z) :
  (∀ c, c ∈ g_text_channels guild → read_message_history P c = false) →
  len (cached_candidates guild user cache) < limit →
  get_user_messages P cache guild user limit =
    cached_candidates guild user cache.
Proof.
  intros Hun Hfew. unfold get_user_messages.
  pose proof (len_nonneg (cached_candidates guild user cache)) as Hnn.
  pose proof (scan_cache_spec guild user limit cache [] ∅) as Hspec.
  pose proof (scan_cache_inl_full guild user limit cache [] ∅) as Hfull.
  destruct (scan_cache guild user limit cache [] ∅) as [r|[m ids]].
  - destruct Hspec as [rest Hrest]. simpl in Hrest.
    specialize (Hfull r eq_refl). rewrite Hrest, len_app in Hfew.
    pose proof (len_nonneg rest). lia.
  - destruct Hspec as [-> _]. simpl.
    rewrite decide_True by done.
    rewrite search_batches_unreadable; [|intros batch c Hb Hc|done].
    + unfold slice_to. rewrite decide_True by lia.
      apply take_ge. unfold len in Hfew. lia.
    + apply Hun. rewrite <- (concat_chunks 5 (g_text_channels guild)) by lia.
      by eapply elem_of_concat_2.
Qed.

(** The obliging platform, without the permission to read any history. *)
Definition unreadable : Platform :=
  {| read_message_history := λ _, false;
     history := history obliging;
     fetch_message := fetch_message obliging;
     delete_messages := delete_messages obliging;
     message_delete := message_delete obliging;
     member_timeout := member_timeout obliging;
     channel_send := channel_send obliging;
     followup_send := followup_send obliging;
     deletion_clock := deletion_clock obliging |}.

Lemma locator_without_readable_history_witness :
  get_user_messages unreadable (message_cache after_two_posts) server spammer 20
  = cached_candidates server spammer (message_cache after_two_posts).
Proof.
  apply (locator_without_readable_history unreadable
           (message_cache after_two_posts) server spammer 20).
  - reflexivity.
  - vm_compute. reflexivity.
Defined.

(** A candidate that the cache holds: a cached message of [user], in a
    deque whose key resolves to the candidate's channel, a channel of
    [guild]. *)
Definition from_cache (cache : MessageCache) (guild : Guild) (user : Z)
    (c : Candidate) : Prop :=
  ∃ k msgs cm,
    (k, msgs) ∈ cache ∧ get_channel guild k = Some c.1
    ∧ ch_guild_id c.1 = g_id guild
    ∧ cm ∈ msgs ∧ cm_author_id cm = user ∧ cm_id cm = c.2.

(** A candidate that a channel history holds: a message of [user] that the
    history of a readable text channel of [guild] yields. *)
Definition from_history (P : Platform) (guild : Guild) (user : Z)
    (c : Candidate) : Prop :=
  c.1 ∈ g_text_channels guild ∧ read_message_history P c.1 = true
  ∧ ∃ n message,
      message ∈ history P c.1 n ∧ m_author_id message = user
      ∧ m_id message = c.2.

Lemma cached_candidates_from_cache cache guild user :
  Forall (from_cache cache guild user) (cached_candidates guild user cache).
Proof.
  assert (H : ∀ todo seen, cache = seen ++ todo →
            Forall (from_cache cache guild user)
              (cached_candidates guild user todo)).
  { induction todo as [|[k msgs] todo IH]; intros seen Hcache;
      [constructor|].
    assert (Hrest : Forall (from_cache cache guild user)
                      (cached_candidates guild user todo)).
    { apply (IH (seen ++ [(k, msgs)])). by rewrite <- app_assoc. }
    cbn [cached_candidates].
    destruct (get_channel guild k) as [channel|] eqn:Hch; [|done].
    destruct (decide (ch_guild_id channel = g_id guild)) as [Hg|]; [|done].
    apply Forall_app_2; [|done].
    apply Forall_forall. intros c Hc. unfold channel_candidates in Hc.
    apply list_elem_of_fmap in Hc as (cm & -> & Hcm).
    apply list_elem_of_filter in Hcm as [Hauthor Hcm].
    exists k, msgs, cm. split_and!; try done.
    rewrite Hcache. apply elem_of_app. right. apply list_elem_of_here. }
  by apply (H cache []).
Qed.

Lemma search_history_Forall (Q : Candidate → Prop) user remaining channel hist
    found existing_ids :
  (∀ message, message ∈ hist → m_author_id message = user →
              Q (channel, m_id message)) →
  Forall Q found →
  Forall Q (search_history user remaining channel hist found existing_ids).1.
Proof.
  revert found existing_ids.
  induction hist as [|message rest IH]; intros found existing_ids HQ Hfound;
    simpl; [done|].
  assert (HQrest : ∀ m, m ∈ rest → m_author_id m = user → Q (channel, m_id m)).
  { intros m Hm. apply HQ. by apply list_elem_of_further. }
  destruct (decide (m_author_id message = user ∧ m_id message ∉ existing_ids))
    as [[Hu _]|_]; [|by apply IH].
  assert (Hfound' : Forall Q (found ++ [(channel, m_id message)])).
  { apply Forall_app_2; [done|]. apply Forall_singleton.
    apply HQ; [apply list_elem_of_here|done]. }
  destruct (decide (remaining ≤ len (found ++ [(channel, m_id message)])));
    [done|by apply IH].
Qed.

Lemma gather_search_Forall P guild user remaining batch existing_ids :
  (∀ c, c ∈ batch → c ∈ g_text_channels guild) →
  Forall (Forall (from_history P guild user))
    (gather_search P user remaining batch existing_ids).1.
Proof.
  revert existing_ids. induction batch as [|channel rest IH];
    intros existing_ids Hin; simpl; [constructor|].
  assert (Hfound : Forall (from_history P guild user)
            (search_channel P user remaining channel existing_ids).1).
  { unfold search_channel.
    destruct (read_message_history P channel) eqn:Hread; [|constructor].
    apply search_history_Forall; [|constructor].
    intros message Hm Hu. split_and!; [apply Hin, list_elem_of_here|done|].
    by exists (search_limit remaining), message. }
  destruct (search_channel P user remaining channel existing_ids)
    as [found ids1]. specialize (IH ids1).
  destruct (gather_search P user remaining rest ids1) as [results ids2].
  simpl in *. constructor; [done|].
  apply IH. intros c Hc. apply Hin. by apply list_elem_of_further.
Qed.

Lemma collect_Forall (Q : Candidate → Prop) limit results messages :
  Forall (Forall Q) results → Forall Q messages →
  Forall Q (collect limit results messages).
Proof.
  revert messages. induction results as [|r rest IH]; intros messages Hr Hm;
    simpl; [done|].
  apply Forall_cons in Hr as [Hr Hrest].
  assert (Forall Q (messages ++ r)) by by apply Forall_app_2.
  destruct (decide (limit ≤ len (messages ++ r))); [done|by apply IH].
Qed.

Lemma search_batches_Forall (Q : Candidate → Prop) P guild user remaining limit
    batches messages existing_ids :
  (∀ c, from_history P guild user c → Q c) →
  (∀ batch c, batch ∈ batches → c ∈ batch → c ∈ g_text_channels guild) →
  Forall Q messages →
  Forall Q (search_batches P user remaining limit batches messages existing_ids).
Proof.
  intros HQ. revert messages existing_ids.
  induction batches as [|batch rest IH]; intros messages existing_ids Hin Hm;
    simpl; [done|].
  pose proof (gather_search_Forall P guild user remaining batch existing_ids)
    as Hg.
  destruct (gather_search P user remaining batch existing_ids)
    as [results ids1]. simpl in Hg.
  assert (Hc : Forall Q (collect limit results messages)).
  { apply collect_Forall; [|done].
    eapply Forall_impl; [apply Hg|].
    - intros c Hc. eapply Hin; [apply list_elem_of_here|done].
    - intros r Hr. eapply Forall_impl; [exact Hr|exact HQ]. }
  destruct (decide (limit ≤ len (collect limit results messages))); [done|].
  apply IH; [|done]. intros b c Hb. apply Hin. by apply list_elem_of_further.
Qed.

Lemma get_user_messages_authorship P cache guild user limit :
  Forall (λ c, from_cache cache guild user c ∨ from_history P guild user c)
    (get_user_messages P cache guild user limit).
Proof.
  set (Q := λ c, from_cache cache guild user c ∨ from_history P guild user c).
  assert (Hcached : Forall Q (cached_candidates guild user cache)).
  { eapply Forall_impl; [apply cached_candidates_from_cache|]. by left. }
  unfold get_user_messages.
  pose proof (scan_cache_spec guild user limit cache [] ∅) as Hspec.
  destruct (scan_cache guild user limit cache [] ∅) as [r|[m ids]].
  - destruct Hspec as [rest Hrest]. simpl in Hrest. rewrite Hrest in Hcached.
    by apply Forall_app in Hcached as [? _].
  - destruct Hspec as [-> _]. simpl.
    assert (Hslice : ∀ l, Forall Q l → Forall Q (slice_to limit l)).
    { intros l Hl. unfold slice_to. destruct (decide (0 ≤ limit));
        by apply Forall_take. }
    apply Hslice.
    destruct (decide (len (cached_candidates guild user cache) < limit));
      [|done].
    apply (search_batches_Forall Q P guild); [by right| |done].
    intros batch c Hb Hc.
    rewrite <- (concat_chunks 5 (g_text_channels guild)) by lia.
    by eapply elem_of_concat_2.
Qed.

(** X13. Every candidate the locator returns is a message of the given
    user: either a cached message with that author, in a channel of the
    guild, or a message with that author that the history of a readable
    text channel of the guild has yielded. *)
Theorem locator_returns_only_the_users_messages (P : Platform)
    (cache : MessageCache) (guild : Guild) (user limit : Z) :
  Forall (λ c, from_cache cache guild user c ∨ from_history P guild user c)
    (get_user_messages P cache guild user limit).
Proof. apply get_user_messages_authorship. Qed.

(** ** The deletion pipeline *)

(** The batches of ids that a trace fetches. *)
Definition fetches (tr : list DelEvent) : list (list Z) :=
  omap (λ ev, match ev with EvFetch ids => Some ids | _ => None end) tr.

Lemma fetch_batches_spec P channel batches :
  (fetch_batches P channel batches).1
    = omap (fetch_message P channel) (concat batches)
  ∧ fetches (fetch_batches P channel batches).2 = batches.
Proof.
  induction batches as [|batch_ids rest [IH1 IH2]]; [done|].
  simpl. destruct (fetch_batches P channel rest) as [valid tr].
  simpl in *. split.
  - by rewrite omap_app, IH1.
  - unfold fetches in *. cbn [omap list_omap]. rewrite omap_app, IH2.
    by destruct rest.
Qed.

(** X14. Fetching the ids ten at a time resolves exactly the ids that
    [fetch_message] finds, in the order given, the others being dropped;
    the fetches are issued in batches of ten ids (the last one may be
    shorter) that together are the list of ids. *)
Theorem fetching_in_batches_resolves_every_id (P : Platform)
    (channel : Channel) (msg_ids : list Z) :
  let batches := fetches (fetch_batches P channel (chunks 10 msg_ids)).2 in
  resolved P channel msg_ids = omap (fetch_message P channel) msg_ids
  ∧ concat batches = msg_ids
  ∧ full_batches 10 batches.
Proof.
  destruct (fetch_batches_spec P channel (chunks 10 msg_ids)) as [H1 H2].
  cbv zeta. unfold resolved. rewrite H1, H2, concat_chunks by lia.
  split_and!; [done..|]. apply chunks_full_batches. lia.
Qed.

Lemma age_partition_aux (now : Z) (l : list Message) :
  old_of now l = filter (λ msg, ¬ now - days 14 < m_created_at msg) l.
Proof.
  unfold old_of. apply list_filter_iff. intros msg. lia.
Qed.

(** X15. The age test splits the resolved messages in two: every message
    is in exactly one of [recent] and [old] (together they are a
    permutation of the input), the recent ones are strictly younger than 14
    days and the old ones, the message created exactly 14 days ago
    included, are not. *)
Theorem age_partition (now : Z) (l : list Message) :
  recent_of now l ++ old_of now l ≡ₚ l
  ∧ Forall (λ msg, now - days 14 < m_created_at msg) (recent_of now l)
  ∧ Forall (λ msg, m_created_at msg ≤ now - days 14) (old_of now l).
Proof.
  split_and!.
  - rewrite age_partition_aux. apply filter_app_complement.
  - apply Forall_forall. intros msg Hm.
    by apply list_elem_of_filter in Hm as [? _].
  - apply Forall_forall. intros msg Hm.
    by apply list_elem_of_filter in Hm as [? _].
Qed.

Lemma bulk_loop_raised P channel fuel k recent old deleted e :
  (bulk_loop P channel fuel k recent old deleted).1 = LoopRaised e →
  is_HTTPException e = false.
Proof.
  revert k recent old deleted.
  induction fuel as [|fuel IH]; intros k recent old deleted; simpl.
  - by destruct (decide (length recent < 2)%nat).
  - destruct (decide (length recent < 2)%nat); [done|].
    destruct (delete_messages P channel k (take 100 recent)) as [e'|];
      [|apply IH].
    destruct (is_HTTPException e') eqn:Hhttp; [|by intros [= <-]].
    destruct (decide (status_of e' = 429)); [|apply IH].
    destruct (delete_messages P channel (S k) (take 100 recent)); apply IH.
Qed.

Lemma run_raised fuel P now channel msg_ids e :
  completion (delete_channel_messages fuel P now channel msg_ids) = Raised e →
  is_HTTPException e = false.
Proof.
  rewrite delete_channel_messages_unfold. cbv zeta.
  destruct (resolved P channel msg_ids) as [|msg valid]; [done|].
  destruct (bulk_loop _ _ _ _ _ _ _) as [[r' o' d|e'|] tr2] eqn:Hloop;
    cbn [fst snd completion]; [done| |done].
  intros [= <-]. eapply bulk_loop_raised. by rewrite Hloop.
Qed.

Lemma gather_counts_raised (runs : list Run) (e : exn) :
  gather_counts runs = Raised e → ∃ r, r ∈ runs ∧ completion r = Raised e.
Proof.
  induction runs as [|r rest IH]; [done|]. simpl.
  destruct (completion r) as [n|e'|] eqn:Hr.
  - destruct (gather_counts rest) as [m|e'|]; [done| |done].
    intros [= <-]. destruct IH as (r' & Hin & Hr'); [done|].
    exists r'. split; [by apply list_elem_of_further|done].
  - intros [= <-]. exists r. split; [apply list_elem_of_here|done].
  - destruct (gather_counts rest) as [m|e'|]; [done| |done].
    intros [= <-]. destruct IH as (r' & Hin & Hr'); [done|].
    exists r'. split; [by apply list_elem_of_further|done].
Qed.

(** X16. No [discord.HTTPException] (a rate limit, [Forbidden] and
    [NotFound] included) leaves the deletion pipeline: an exception that
    leaves [delete_messages_efficiently] left the [delete_channel_messages]
    of one of its channel groups and is not an HTTPException. *)
Theorem deletion_raises_no_http_error (fuel : nat) (P : Platform)
    (messages : list Candidate) (e : exn) :
  delete_messages_efficiently fuel P messages = Raised e →
  is_HTTPException e = false
  ∧ ∃ channel ids,
      (channel, ids) ∈ group_by_channel messages []
      ∧ completion (delete_channel_messages fuel P (deletion_clock P channel)
                      channel ids) = Raised e.
Proof.
  unfold delete_messages_efficiently. intros Hraised.
  apply gather_counts_raised in Hraised as (r & Hin & Hr).
  apply list_elem_of_fmap in Hin as ([channel ids] & -> & Hin).
  split; [by eapply run_raised|]. by exists channel, ids.
Qed.

(** The obliging platform, with a bulk deletion that raises an exception
    that is no HTTPException. *)
Definition bulk_crashes : Platform :=
  {| read_message_history := read_message_history obliging;
     history := history obliging;
     fetch_message := fetch_message obliging;
     delete_messages := λ _ _ _, Some OtherException;
     message_delete := message_delete obliging;
     member_timeout := member_timeout obliging;
     channel_send := channel_send obliging;
     followup_send := followup_send obliging;
     deletion_clock := deletion_clock obliging |}.

Lemma deletion_raises_no_http_error_witness :
  delete_messages_efficiently 1 bulk_crashes [(general, 1); (general, 2)]
    = Raised OtherException
  ∧ is_HTTPException OtherException = false.
Proof.
  split; [reflexivity|].
  apply (deletion_raises_no_http_error 1 bulk_crashes
           [(general, 1); (general, 2)] OtherException).
  reflexivity.
Defined.

(** X17. On every platform that never fails the retry that follows an HTTP
    429, [delete_channel_messages] ends: fuel for as many iterations as
    there are recent messages is enough for the bulk loop. *)
Theorem deletion_ends_when_retries_succeed (fuel : nat) (P : Platform)
    (now : Z) (channel : Channel) (msg_ids : list Z) :
  (∀ k batch e,
     delete_messages P channel k batch = Some e →
     is_HTTPException e = true → status_of e = 429 →
     delete_messages P channel (S k) batch = None) →
  (length (recent_of now (resolved P channel msg_ids)) ≤ fuel)%nat →
  completion (delete_channel_messages fuel P now channel msg_ids) ≠ Unfinished.
Proof.
  intros Hretry Hfuel. rewrite delete_channel_messages_unfold. cbv zeta.
  destruct (resolved P channel msg_ids) as [|msg valid]; [done|].
  pose proof (bulk_loop_ends_when_retries_succeed P channel fuel 0
                (recent_of now (msg :: valid)) (old_of now (msg :: valid)) 0
                Hretry Hfuel) as Hends.
  by destruct (bulk_loop _ _ _ _ _ _ _) as [[r' o' d|e'|] tr2].
Qed.


Lemma singles_deleted_le P channel i l :
  (singles_deleted P channel i l ≤ length l)%nat.
Proof.
  revert i. induction l as [|m l IH]; intros i; simpl; [done|].
  specialize (IH (S i)). destruct (message_delete P channel i m); lia.
Qed.

(** Unless a retry fails, every iteration of the bulk loop moves the
    messages of its chunk from [recent] to the count or to [old]. *)
Lemma bulk_loop_conserves P channel fuel k recent old deleted r' o' d' :
  (∀ k' batch e,
     delete_messages P channel k' batch = Some e →
     is_HTTPException e = true → status_of e = 429 →
     delete_messages P channel (S k') batch = None) →
  (bulk_loop P channel fuel k recent old deleted).1 = LoopDone r' o' d' →
  (d' + length o' + length r' = deleted + length old + length recent)%nat.
Proof.
  intros Hretry. revert k recent old deleted.
  induction fuel as [|fuel IH]; intros k recent old deleted; simpl.
  - destruct (decide (length recent < 2)%nat); [|done].
    by intros [= <- <- <-].
  - destruct (decide (length recent < 2)%nat); [by intros [= <- <- <-]|].
    assert (Hsplit : (length (take 100 recent) + length (drop 100 recent)
                      = length recent)%nat).
    { rewrite <- length_app. by rewrite take_drop. }
    destruct (delete_messages P channel k (take 100 recent)) as [e|] eqn:Hcall.
    + destruct (is_HTTPException e) eqn:Hhttp; [|done].
      destruct (decide (status_of e = 429)) as [H429|].
      * rewrite (Hretry _ _ _ Hcall Hhttp H429). unfold prepend. cbn [fst].
        intros Hdone. apply IH in Hdone. lia.
      * unfold prepend. cbn [fst]. intros Hdone. apply IH in Hdone.
        rewrite length_app in Hdone. lia.
    + unfold prepend. cbn [fst]. intros Hdone. apply IH in Hdone. lia.
Qed.

Lemma length_omap_le {A B} (f : A → option B) (l : list A) :
  (length (omap f l) ≤ length l)%nat.
Proof.
  induction l as [|x l IH]; csimpl; [done|]. destruct (f x); csimpl; lia.
Qed.

(** X18. On every platform that never fails the retry that follows an HTTP
    429, the count [delete_channel_messages] returns is at most the number
    of ids it was given: no message is counted twice. *)
Theorem deleted_count_is_bounded (fuel : nat) (P : Platform) (now : Z)
    (channel : Channel) (msg_ids : list Z) (n : nat) :
  (∀ k batch e,
     delete_messages P channel k batch = Some e →
     is_HTTPException e = true → status_of e = 429 →
     delete_messages P channel (S k) batch = None) →
  completion (delete_channel_messages fuel P now channel msg_ids) = Returned n →
  (n ≤ length msg_ids)%nat.
Proof.
  intros Hretry Hn.
  destruct (run_returned fuel P now channel msg_ids n Hn)
    as [(_ & -> & _)|(r' & o' & d & tr2 & Hl & -> & _)]; [lia|].
  pose proof (bulk_loop_conserves P channel fuel 0
                (recent_of now (resolved P channel msg_ids))
                (old_of now (resolved P channel msg_ids)) 0 r' o' d Hretry)
    as Hcons.
  rewrite Hl in Hcons. specialize (Hcons eq_refl).
  pose proof (singles_deleted_le P channel 0 (o' ++ r')) as Hle.
  rewrite length_app in Hle.
  destruct (age_partition now (resolved P channel msg_ids)) as [Hperm _].
  apply Permutation_length in Hperm. rewrite length_app in Hperm.
  destruct (fetch_batches_spec P channel (chunks 10 msg_ids)) as [Hres _].
  rewrite concat_chunks in Hres by lia.
  pose proof (length_omap_le (fetch_message P channel) msg_ids) as Hfetch.
  unfold resolved in *. rewrite Hres in *. lia.
Qed.


(** X19. When no id can be fetched (the empty list of ids included),
    [delete_channel_messages] returns 0 at once: it issues no bulk call and
    no individual deletion. *)
Theorem nothing_resolved_nothing_deleted (fuel : nat) (P : Platform)
    (now : Z) (channel : Channel) (msg_ids : list Z) :
  (∀ id, id ∈ msg_ids → fetch_message P channel id = None) →
  let run := delete_channel_messages fuel P now channel msg_ids in
  completion run = Returned 0
  ∧ bulk_calls (trace run) = []
  ∧ single_batches (trace run) = []
  ∧ concat (fetches (trace run)) = msg_ids.
Proof.
  intros Hnone run. subst run.
  destruct (fetch_batches_spec P channel (chunks 10 msg_ids)) as [Hres Hf].
  rewrite concat_chunks in Hres by lia.
  assert (Hempty : resolved P channel msg_ids = []).
  { unfold resolved. rewrite Hres. clear Hres Hf.
    induction msg_ids as [|id ids IH]; [done|]. csimpl.
    rewrite Hnone by apply list_elem_of_here.
    apply IH. intros id' Hid'. apply Hnone. by apply list_elem_of_further. }
  destruct (fetch_batches_silent P channel (chunks 10 msg_ids))
    as (F1 & _ & _ & F4).
  rewrite delete_channel_messages_unfold. cbv zeta. rewrite Hempty.
  cbn [completion trace]. rewrite Hf, concat_chunks by lia. done.
Qed.

(** The obliging platform, on which no message can be fetched any more. *)
Definition nothing_found : Platform :=
  {| read_message_history := read_message_history obliging;
     history := history obliging;
     fetch_message := λ _ _, None;
     delete_messages := delete_messages obliging;
     message_delete := message_delete obliging;
     member_timeout := member_timeout obliging;
     channel_send := channel_send obliging;
     followup_send := followup_send obliging;
     deletion_clock := deletion_clock obliging |}.

Lemma nothing_resolved_nothing_deleted_witness :
  completion (delete_channel_messages 0 nothing_found 0 general [1; 2; 3])
  = Returned 0.
Proof.
  apply (nothing_resolved_nothing_deleted 0 nothing_found 0 general [1; 2; 3]).
  reflexivity.
Defined.

Lemma gather_counts_returned (runs : list Run) (n : nat) :
  gather_counts runs = Returned n ↔
  ∃ counts, Forall2 (λ r k, completion r = Returned k) runs counts
            ∧ n = sum_list counts.
Proof.
  revert n. induction runs as [|r rest IH]; intros n.
  - simpl. split.
    + intros [= <-]. exists []. split; [constructor|done].
    + intros (counts & Hall & ->). apply Forall2_nil_inv_l in Hall as ->. done.
  - simpl. split.
    + destruct (completion r) as [k|e|] eqn:Hr;
        destruct (gather_counts rest) as [m|e'|] eqn:Hrest; try done.
      intros [= <-]. destruct (proj1 (IH m) eq_refl) as (counts & Hall & ->).
      exists (k :: counts). split; [by constructor|done].
    + intros (counts & Hall & ->).
      destruct counts as [|k counts]; [by apply Forall2_cons_nil_inv in Hall|].
      apply Forall2_cons in Hall as [Hr Hall]. rewrite Hr.
      rewrite (proj2 (IH (sum_list counts))) by eauto. done.
Qed.

(** X20. [delete_messages_efficiently] returns exactly when the
    [delete_channel_messages] of every channel group returns, and what it
    returns is then the sum of their counts. *)
Theorem pipeline_total_is_sum_of_channels (fuel : nat) (P : Platform)
    (messages : list Candidate) (n : nat) :
  delete_messages_efficiently fuel P messages = Returned n ↔
  ∃ counts,
    Forall2 (λ g k,
               completion (delete_channel_messages fuel P
                             (deletion_clock P g.1) g.1 g.2) = Returned k)
      (group_by_channel messages []) counts
    ∧ n = sum_list counts.
Proof.
  unfold delete_messages_efficiently. rewrite gather_counts_returned.
  split; intros (counts & Hall & ->); exists counts; (split; [|done]).
  - by apply Forall2_fmap_l in Hall.
  - by apply Forall2_fmap_l.
Qed.

Lemma dict_set_keys {V} (k : Channel) (v : V) (d : list (Channel * V)) :
  (dict_set k v d).*1 = if decide (k ∈ d.*1) then d.*1 else d.*1 ++ [k].
Proof.
  induction d as [|[k' v'] d IH].
  - destruct (decide (k ∈ ([] : list (Channel * V)).*1)) as [H|_]; [|done].
    by apply elem_of_nil in H.
  - cbn [dict_set]. destruct (decide (k = k')) as [->|Hne].
    + cbn [fmap list_fmap fst]. by rewrite decide_True by apply list_elem_of_here.
    + cbn [fmap list_fmap fst]. rewrite IH.
      destruct (decide (k ∈ d.*1)) as [Hin|Hnin].
      * by rewrite decide_True by (by apply list_elem_of_further).
      * rewrite decide_False; [done|].
        rewrite elem_of_cons. intros [?|?]; done.
Qed.

Lemma dict_get_set {V} (k k' : Channel) (v : V) (d : list (Channel * V)) :
  dict_get k' (dict_set k v d) = if decide (k' = k) then Some v else dict_get k' d.
Proof.
  destruct (decide (k' = k)) as [->|Hne].
  - apply dict_get_set_eq.
  - by apply dict_get_set_ne.
Qed.

Lemma group_by_channel_spec (messages : list Candidate)
    (groups : list (Channel * list Z)) :
  let result := group_by_channel messages groups in
  (NoDup groups.*1 → NoDup result.*1)
  ∧ (∀ channel, channel ∈ result.*1 ↔
                channel ∈ groups.*1 ∨ channel ∈ messages.*1)
  ∧ (∀ channel,
       default [] (dict_get channel result) =
       default [] (dict_get channel groups)
         ++ (filter (λ c, c.1 = channel) messages).*2).
Proof.
  revert groups. induction messages as [|[channel msg_id] rest IH];
    intros groups; cbn [group_by_channel].
  - split_and!; [done| |].
    + intros c. cbn. rewrite elem_of_nil. tauto.
    + intros c. by rewrite filter_nil, app_nil_r.
  - set (groups' := dict_set channel _ groups).
    destruct (IH groups') as (Hnd & Hkeys & Hget).
    assert (Hk' : ∀ c, c ∈ groups'.*1 ↔ c ∈ groups.*1 ∨ c = channel).
    { intros c. subst groups'. rewrite dict_set_keys.
      destruct (decide (channel ∈ groups.*1)).
      - split; [tauto|]. intros [?| ->]; done.
      - rewrite elem_of_app, list_elem_of_singleton. tauto. }
    split_and!.
    + intros Hg. apply Hnd. subst groups'. rewrite dict_set_keys.
      destruct (decide (channel ∈ groups.*1)); [done|].
      apply NoDup_app. split_and!; [done| |apply NoDup_singleton].
      intros c Hc Hc'. apply list_elem_of_singleton in Hc' as ->. done.
    + intros c. rewrite Hkeys, Hk'. cbn [fmap list_fmap fst].
      rewrite elem_of_cons. tauto.
    + intros c. rewrite Hget. subst groups'. rewrite dict_get_set.
      rewrite filter_cons. cbn [fst].
      destruct (decide (c = channel)) as [->|Hne].
      * rewrite decide_True by done. cbn [default fmap list_fmap snd].
        unfold id. by rewrite <- app_assoc.
      * rewrite decide_False by (intros ?; by apply Hne). done.
Qed.

(** X21. Grouping the candidates by channel loses and invents nothing:
    there is one group per channel that occurs among the candidates, no
    channel twice, and the group of a channel holds the message ids of that
    channel's candidates, in their order. *)
Theorem groups_partition_the_candidates (messages : list Candidate) :
  let groups := group_by_channel messages [] in
  NoDup groups.*1
  ∧ (∀ channel, channel ∈ groups.*1 ↔ channel ∈ messages.*1)
  ∧ (∀ channel,
       default [] (dict_get channel groups) =
       (filter (λ c, c.1 = channel) messages).*2).
Proof.
  destruct (group_by_channel_spec messages []) as (Hnd & Hkeys & Hget).
  cbv zeta. split_and!.
  - apply Hnd. constructor.
  - intros channel. rewrite Hkeys. cbn. rewrite elem_of_nil. tauto.
  - intros channel. by rewrite Hget.
Qed.

Lemma locator_at_most_50 P cache guild user :
  len (get_user_messages P cache guild user 50) ≤ 50.
Proof. pose proof (get_user_messages_bound P cache guild user 50). lia. Qed.

(** ** The handlers and the state *)

Lemma auto_repel_deletes_what_it_located fuel P st message guild unique found :
  ActDelete found ∈ actions (auto_repel fuel P st message guild unique) →
  found = get_user_messages P (message_cache st) guild (m_author_id message) 50.
Proof.
  unfold auto_repel, except_forbidden, then_process_commands.
  repeat case_match; cbn [actions]; intros Hin;
    repeat (apply elem_of_app in Hin as [Hin|Hin]);
    repeat (apply elem_of_cons in Hin as [Hin|Hin]);
    try (by apply elem_of_nil in Hin); try discriminate Hin;
    by injection Hin.
Qed.

(** X22. Whatever [on_message] hands to the deletion pipeline is what the
    locator found for the author of the message with the limit 50: at most
    50 candidates, each of them a message of that author, cached or read
    from the history of a channel of the guild. *)
Theorem auto_repel_deletes_only_the_authors_messages (fuel : nat)
    (P : Platform) (now : Z) (st : State) (message : Message)
    (found : list Candidate) :
  ActDelete found ∈ actions (on_message fuel P now st message) →
  ∃ guild,
    m_guild message = Some guild
    ∧ len found ≤ 50
    ∧ Forall (λ c, from_cache (record (message_cache st) message) guild
                     (m_author_id message) c
                   ∨ from_history P guild (m_author_id message) c) found.
Proof.
  unfold on_message. destruct (m_author_bot message).
  { intros Hin. by apply elem_of_nil in Hin. }
  destruct (m_guild message) as [guild|].
  2:{ intros Hin. by apply elem_of_nil in Hin. }
  cbv zeta. destruct (should_trigger _).
  2:{ unfold then_process_commands. cbn [actions app]. intros Hin.
      apply list_elem_of_singleton in Hin. discriminate Hin. }
  intros Hin. apply auto_repel_deletes_what_it_located in Hin as ->.
  cbn [message_cache]. exists guild. split_and!; [done| |].
  - apply locator_at_most_50.
  - apply get_user_messages_authorship.
Qed.

(** One delivery of a message to the bot: the fuel, the platform and the
    clock of that run of [on_message], and the message. *)
Record Delivery := {
  d_fuel : nat;
  d_platform : Platform;
  d_now : Z;
  d_message : Message
}.

Definition deliver (st : State) (d : Delivery) : State :=
  state (on_message (d_fuel d) (d_platform d) (d_now d) st (d_message d)).

Definition cache_bounded (cache : MessageCache) : Prop :=
  NoDup (cache.*1) ∧ Forall (λ kv, (length kv.2 ≤ 500)%nat) cache.

Lemma deque_append_bounded {A} (n : nat) (d : list A) (x : A) :
  (length d ≤ n)%nat → (length (deque_append n d x) ≤ n)%nat.
Proof.
  intros Hd. unfold deque_append.
  destruct (decide (n < length (d ++ [x]))%nat) as [Hlt|Hge].
  - rewrite length_drop, length_app. simpl. lia.
  - lia.
Qed.

Lemma record_bounded (cache : MessageCache) (m : Message) :
  cache_bounded cache → cache_bounded (record cache m).
Proof.
  intros [Hnd Hall]. split.
  - rewrite record_keys. destruct (decide (_ ∈ _)) as [Hin|Hnin]; [done|].
    apply NoDup_app. split_and!; [done| |apply NoDup_singleton].
    intros c Hc Hc'. apply list_elem_of_singleton in Hc' as ->. done.
  - clear Hnd. induction cache as [|[k v] cache IH].
    + rewrite record_nil. constructor; [simpl; lia|constructor].
    + apply Forall_cons in Hall as [Hv Hall]. rewrite record_cons.
      destruct (decide (ch_id (m_channel m) = k)).
      * constructor; [|done]. cbn [snd] in *.
        by apply (deque_append_bounded 500).
      * constructor; [done|by apply IH].
Qed.

Lemma on_message_cache fuel P now st message :
  message_cache (state (on_message fuel P now st message)) =
    if m_author_bot message then message_cache st
    else record (message_cache st) message.
Proof.
  unfold on_message. destruct (m_author_bot message); [done|].
  destruct (m_guild message) as [guild|]; [|done].
  cbv zeta. destruct (should_trigger _); [|done].
  by rewrite auto_repel_keeps_cache.
Qed.

(** X23. However [on_message] runs and ends on them, the messages delivered
    to a bot that started with an empty cache leave a cache with one deque
    per channel key and at most 500 entries in every deque. *)
Theorem cache_stays_bounded_under_on_message (deliveries : list Delivery) :
  cache_bounded (message_cache (foldl deliver empty_state deliveries)).
Proof.
  induction deliveries as [|d ds IH] using rev_ind.
  - split; constructor.
  - rewrite foldl_app. cbn [foldl]. unfold deliver at 1.
    rewrite on_message_cache.
    destruct (m_author_bot (d_message d)); [done|by apply record_bounded].
Qed.

Lemma repel_deletes_what_it_located fuel P server_id cache i user messagecount
    timeoutminutes found :
  ActDelete found
    ∈ (repel fuel P server_id cache i user messagecount timeoutminutes).1 →
  found = get_user_messages P cache (i_guild i) user messagecount.
Proof.
  unfold repel, send_response.
  repeat case_match; cbn [fst]; intros Hin;
    repeat (apply elem_of_app in Hin as [Hin|Hin]);
    repeat (apply elem_of_cons in Hin as [Hin|Hin]);
    try (by apply elem_of_nil in Hin); try discriminate Hin;
    by injection Hin.
Qed.

(** X24. Whatever a [repel] command with a positive [messagecount] hands to
    the deletion pipeline holds at most [messagecount] candidates, each of
    them a message of the targeted user, cached or read from the history of
    a channel of the guild of the interaction. *)
Theorem repel_deletes_only_the_targets_messages (fuel : nat) (P : Platform)
    (server_id : option string) (cache : MessageCache) (i : Interaction)
    (user messagecount timeoutminutes : Z) (found : list Candidate) :
  1 ≤ messagecount →
  ActDelete found
    ∈ (repel fuel P server_id cache i user messagecount timeoutminutes).1 →
  len found ≤ messagecount
  ∧ Forall (λ c, from_cache cache (i_guild i) user c
                 ∨ from_history P (i_guild i) user c) found.
Proof.
  intros Hpos Hin. apply repel_deletes_what_it_located in Hin as ->. split.
  - pose proof (get_user_messages_bound P cache (i_guild i) user messagecount).
    lia.
  - apply get_user_messages_authorship.
Qed.

Lemma repel_deletes_only_the_targets_messages_witness :
  let moderator := {| i_guild := server; i_user_manage_messages := true;
                      i_bot_manage_messages := true;
                      i_bot_moderate_members := true;
                      i_channel := Some general |} in
  len [(general, 1)] ≤ 1
  ∧ Forall (λ c, from_cache (message_cache after_two_posts) server spammer c
                 ∨ from_history obliging server spammer c) [(general, 1)].
Proof.
  intros moderator.
  apply (repel_deletes_only_the_targets_messages 0 obliging None
           (message_cache after_two_posts) moderator spammer 1 120
           [(general, 1)]).
  - lia.
  - vm_compute. do 3 right. left.
Defined.

Lemma get_user_messages_at_most_limit_witness :
  get_user_messages obliging (message_cache after_two_posts) server spammer 1
    = [(general, 1)]
  ∧ len (get_user_messages obliging (message_cache after_two_posts) server
           spammer 1) ≤ 1.
Proof.
  split; [reflexivity|].
  apply (get_user_messages_at_most_limit obliging
           (message_cache after_two_posts) server spammer 1).
  lia.
Defined.

Lemma auto_repel_deletes_only_the_authors_messages_witness :
  let found := [(general, 1); (random, 2); (offtopic, 3)] in
  ∃ guild,
    m_guild third_post = Some guild
    ∧ len found ≤ 50
    ∧ Forall (λ c, from_cache (record (message_cache after_two_posts) third_post)
                     guild (m_author_id third_post) c
                   ∨ from_history obliging guild (m_author_id third_post) c)
        found.
Proof.
  intros found.
  apply (auto_repel_deletes_only_the_authors_messages 0 obliging (seconds 3)
           after_two_posts third_post found).
  vm_compute. do 2 right. left.
Defined.

(** ** The deletion of one channel against the platform's answers *)

(** The chunks that the answers of the platform send to the individual
    deletions, read off the bulk calls [calls], issued as calls number [k],
    [k + 1], ...: a chunk whose call failed with an HTTP error other than
    429, and a chunk whose call failed with 429 and whose retry, the next
    call, failed too. *)
Fixpoint failed_chunks (P : Platform) (channel : Channel) (k : nat)
    (calls : list (list Message)) : list (list Message) :=
  match calls with
  | [] => []
  | batch :: rest =>
      match delete_messages P channel k batch with
      | None => failed_chunks P channel (S k) rest
      | Some e =>
          if is_HTTPException e && bool_decide (status_of e = 429) then
            match rest with
            | [] => []
            | retry :: rest' =>
                match delete_messages P channel (S k) retry with
                | None => failed_chunks P channel (S (S k)) rest'
                | Some _ => retry :: failed_chunks P channel (S (S k)) rest'
                end
            end
          else batch :: failed_chunks P channel (S k) rest
      end
  end.

Lemma bulk_loop_fallbacks P channel fuel k recent old deleted r' o' d' :
  (bulk_loop P channel fuel k recent old deleted).1 = LoopDone r' o' d' →
  fallbacks (bulk_loop P channel fuel k recent old deleted).2
  = failed_chunks P channel k
      (bulk_calls (bulk_loop P channel fuel k recent old deleted).2).
Proof.
  revert k recent old deleted.
  induction fuel as [|fuel IH]; intros k recent old deleted; simpl.
  - by destruct (decide (length recent < 2)%nat).
  - destruct (decide (length recent < 2)%nat); [done|].
    destruct (delete_messages P channel k (take 100 recent)) as [e|] eqn:Hcall.
    + destruct (is_HTTPException e) eqn:Hhttp; [|done].
      destruct (decide (status_of e = 429)) as [H429|Hother].
      * destruct (delete_messages P channel (S k) (take 100 recent))
          as [e'|] eqn:Hretry; unfold prepend; cbn [fst snd]; intros Hdone;
          rewrite fallbacks_app, bulk_calls_app, (IH _ _ _ _ Hdone);
          cbn; rewrite Hcall, Hhttp, bool_decide_eq_true_2 by done;
          cbn; by rewrite Hretry.
      * unfold prepend; cbn [fst snd]; intros Hdone.
        rewrite fallbacks_app, bulk_calls_app, (IH _ _ _ _ Hdone).
        cbn. rewrite Hcall, Hhttp, bool_decide_eq_false_2 by done. done.
    + unfold prepend; cbn [fst snd]; intros Hdone.
      rewrite fallbacks_app, bulk_calls_app, (IH _ _ _ _ Hdone).
      cbn. by rewrite Hcall.
Qed.

(** A loop that ends has issued a bulk call on every chunk before the one
    it leaves over. *)
Lemma bulk_loop_covers P channel fuel k recent old deleted r' o' d' :
  (bulk_loop P channel fuel k recent old deleted).1 = LoopDone r' o' d' →
  ∃ j, r' = drop (100 * j) recent
       ∧ ∀ j', (j' < j)%nat →
               take 100 (drop (100 * j') recent)
               ∈ bulk_calls (bulk_loop P channel fuel k recent old deleted).2.
Proof.
  revert k recent old deleted.
  assert (Hstep : ∀ (recent : list Message) (calls : list (list Message)) r j,
            r = drop (100 * j) (drop 100 recent) →
            (∀ j', (j' < j)%nat →
                   take 100 (drop (100 * j') (drop 100 recent)) ∈ calls) →
            ∀ pre, take 100 recent ∈ pre →
            ∃ j0, r = drop (100 * j0) recent
                  ∧ ∀ j', (j' < j0)%nat →
                          take 100 (drop (100 * j') recent) ∈ pre ++ calls).
  { intros recent calls r j -> Hcov pre Hpre. exists (S j). split.
    - rewrite drop_drop. f_equal. lia.
    - intros [|j'] Hj'; apply elem_of_app.
      + left. by rewrite Nat.mul_0_r.
      + right. specialize (Hcov j' ltac:(lia)). rewrite drop_drop in Hcov.
        by replace (100 * S j')%nat with (100 + 100 * j')%nat by lia. }
  induction fuel as [|fuel IH]; intros k recent old deleted; simpl.
  - destruct (decide (length recent < 2)%nat); [|done].
    intros [= <- <- <-]. exists 0%nat. split; [done|]. intros j' Hj'. lia.
  - destruct (decide (length recent < 2)%nat).
    { intros [= <- <- <-]. exists 0%nat. split; [done|]. intros j' Hj'. lia. }
    destruct (delete_messages P channel k (take 100 recent)) as [e|] eqn:Hcall.
    + destruct (is_HTTPException e) eqn:Hhttp; [|done].
      destruct (decide (status_of e = 429)) as [H429|Hother].
      * destruct (delete_messages P channel (S k) (take 100 recent))
          as [e'|] eqn:Hretry; unfold prepend; cbn [fst snd]; intros Hdone;
          rewrite bulk_calls_app; destruct (IH _ _ _ _ Hdone) as (j & Hj & Hcov).
        -- exists j. split; [done|]. intros j' Hj'. apply elem_of_app.
           right. by apply Hcov.
        -- eapply Hstep; [done..|]. apply list_elem_of_here.
      * unfold prepend; cbn [fst snd]; intros Hdone. rewrite bulk_calls_app.
        destruct (IH _ _ _ _ Hdone) as (j & Hj & Hcov).
        eapply Hstep; [done..|]. apply list_elem_of_here.
    + unfold prepend; cbn [fst snd]; intros Hdone. rewrite bulk_calls_app.
      destruct (IH _ _ _ _ Hdone) as (j & Hj & Hcov).
      eapply Hstep; [done..|]. apply list_elem_of_here.
Qed.


Lemma partition_of_resolved P now channel msg_ids :
  recent_of now (resolved P channel msg_ids)
    = filter (λ msg, now - days 14 < m_created_at msg)
        (omap (fetch_message P channel) msg_ids)
  ∧ old_of now (resolved P channel msg_ids)
    = filter (λ msg, m_created_at msg ≤ now - days 14)
        (omap (fetch_message P channel) msg_ids).
Proof.
  destruct (fetch_batches_spec P channel (chunks 10 msg_ids)) as [Hres _].
  rewrite concat_chunks in Hres by lia.
  unfold recent_of, old_of, resolved. by rewrite Hres.
Qed.

Lemma covered_by_chunks {A} (l : list A) (j : nat) (x : A) :
  x ∈ l →
  (∃ j', (j' < j)%nat ∧ x ∈ take 100 (drop (100 * j') l))
  ∨ x ∈ drop (100 * j) l.
Proof.
  intros Hx. induction j as [|j IH].
  - right. by rewrite Nat.mul_0_r.
  - destruct IH as [(j' & Hj' & Hin)|Hin].
    + left. exists j'. split; [lia|done].
    + rewrite <- (take_drop 100 (drop (100 * j) l)) in Hin.
      apply elem_of_app in Hin as [Hin|Hin].
      * left. exists j. split; [lia|done].
      * right. rewrite drop_drop in Hin.
        by replace (100 * S j)%nat with (100 * j + 100)%nat by lia.
Qed.

(** A run that returns, relative to the lists of lines 192-193. *)
Lemma returned_run_spec fuel P now channel msg_ids n :
  let run := delete_channel_messages fuel P now channel msg_ids in
  let recent := recent_of now (resolved P channel msg_ids) in
  let old := old_of now (resolved P channel msg_ids) in
  let calls := bulk_calls (trace run) in
  completion run = Returned n →
  ∃ j,
    concat (deferred (trace run)) = drop (100 * j) recent
    ∧ (length (drop (100 * j) recent) ≤ 1)%nat
    ∧ Forall (chunk_of recent) calls
    ∧ (∀ j', (j' < j)%nat → take 100 (drop (100 * j') recent) ∈ calls)
    ∧ concat (single_batches (trace run))
      = old ++ concat (failed_chunks P channel 0 calls) ++ drop (100 * j) recent
    ∧ full_batches 5 (single_batches (trace run))
    ∧ n = (bulk_deleted P channel 0 calls
           + singles_deleted P channel 0 (concat (single_batches (trace run))))%nat.
Proof.
  intros run recent old calls Hn. subst calls.
  destruct (run_returned fuel P now channel msg_ids n Hn)
    as [(Hv & -> & Hb & Hf & Hd & Hs)
       |(r' & o' & d & tr2 & Hl & -> & Hb & Hf & Hd & Hs)];
    fold run in Hb, Hf, Hd, Hs; rewrite Hb, Hd, Hs.
  - assert (recent = [] ∧ old = []) as [-> ->].
    { subst recent old. rewrite Hv. unfold recent_of, old_of.
      by rewrite !filter_nil. }
    exists 0%nat. rewrite drop_nil.
    split_and!; [done|simpl; lia|constructor| |done|constructor|done].
    intros j' Hj'. lia.
  - fold recent old in Hl.
    pose proof (bulk_loop_spec P channel fuel 0 recent old 0) as Hspec.
    pose proof (bulk_loop_fallbacks P channel fuel 0 recent old 0 r' o' d)
      as Hfall.
    pose proof (bulk_loop_covers P channel fuel 0 recent old 0 r' o' d)
      as Hcov.
    cbv zeta in Hspec. rewrite Hl in Hspec, Hfall, Hcov.
    cbn [fst snd] in Hspec, Hfall, Hcov.
    destruct Hspec as (Hchunks & _ & _ & Hdone).
    destruct (Hdone _ _ _ eq_refl) as (_ & Hlen & -> & ->).
    destruct (Hcov eq_refl) as (j & -> & Hall).
    rewrite (Hfall eq_refl). exists j. cbn [concat].
    rewrite app_nil_r, concat_chunks by lia.
    split_and!; [done|lia|done|done|by rewrite <- app_assoc| |done].
    apply chunks_full_batches. lia.
Qed.

(** C8. For every list of ids, platform and clock, [young] being the
    messages that [fetch_message] finds for the ids and that were created
    within the last 14 days: every bulk call of [delete_channel_messages]
    is issued on the next chunk of [young] while at least two of its
    messages remain, so it carries between 2 and 100 fetched messages, all
    younger than 14 days. When the operation returns, every chunk of
    [young] before the leftover got a bulk call and no other list did, the
    leftover is at most one message, so every message of [young] is in a
    bulk call or is that leftover, and the leftover is handed to the
    individual deletions, after the older messages and the chunks whose
    bulk call failed. When no bulk call fails, the operation returns and
    the bulk calls are [young] cut in chunks of 100, in order, but for at
    most one leftover message. *)
Theorem bulk_deletion_in_chunks (fuel : nat) (P : Platform) (now : Z)
    (channel : Channel) (msg_ids : list Z) :
  let run := delete_channel_messages fuel P now channel msg_ids in
  let fetched := omap (fetch_message P channel) msg_ids in
  let young := filter (λ msg, now - days 14 < m_created_at msg) fetched in
  let aged := filter (λ msg, m_created_at msg ≤ now - days 14) fetched in
  let calls := bulk_calls (trace run) in
  Forall (λ batch,
            (∃ j, batch = take 100 (drop (100 * j) young)
                  ∧ (2 ≤ length (drop (100 * j) young))%nat)
            ∧ (2 ≤ length batch ≤ 100)%nat
            ∧ Forall (λ msg, msg ∈ fetched ∧ now - days 14 < m_created_at msg)
                batch)
         calls
  ∧ (∀ n, completion run = Returned n →
       ∃ j, concat (deferred (trace run)) = drop (100 * j) young
            ∧ (length (drop (100 * j) young) ≤ 1)%nat
            ∧ Forall (λ batch, ∃ j', (j' < j)%nat
                               ∧ batch = take 100 (drop (100 * j') young))
                     calls
            ∧ (∀ j', (j' < j)%nat → take 100 (drop (100 * j') young) ∈ calls)
            ∧ (∀ msg, msg ∈ young →
                      msg ∈ concat calls ∨ msg ∈ drop (100 * j) young)
            ∧ concat (single_batches (trace run)) =
                aged ++ concat (failed_chunks P channel 0 calls)
                  ++ drop (100 * j) young)
  ∧ ((∀ k batch, delete_messages P channel k batch = None) →
     (length young ≤ fuel)%nat →
     ∃ leftover,
       concat calls ++ leftover = young
       ∧ (length leftover ≤ 1)%nat
       ∧ full_batches 100 calls
       ∧ concat (single_batches (trace run)) = aged ++ leftover
       ∧ ∃ n, completion run = Returned n).
Proof.
  intros run fetched young aged calls.
  destruct (partition_of_resolved P now channel msg_ids) as [Hrecent Hold].
  fold fetched in Hrecent, Hold. fold young in Hrecent. fold aged in Hold.
  pose proof (bulk_calls_are_chunks_of_recent fuel P now channel msg_ids)
    as (Hcalls & _ & Hsucceed).
  pose proof (λ n, returned_run_spec fuel P now channel msg_ids n) as Hret.
  cbv zeta in Hcalls, Hsucceed, Hret.
  fold run in Hcalls, Hsucceed, Hret. fold calls in Hcalls, Hsucceed, Hret.
  rewrite Hrecent in Hcalls, Hsucceed. rewrite Hold in Hsucceed.
  setoid_rewrite Hrecent in Hret. setoid_rewrite Hold in Hret.
  split_and!.
  - eapply Forall_impl; [exact Hcalls|].
    intros batch (Hchunk & Hsize & Hyoung). split; [exact Hchunk|].
    split; [exact Hsize|]. apply Forall_forall. intros msg Hmsg.
    apply (chunk_of_elem _ _ _ Hchunk) in Hmsg.
    by apply list_elem_of_filter in Hmsg as [? ?].
  - intros n Hn.
    destruct (Hret n Hn) as (j & Hdef & Hlen & Hchunks & Hcov & Hsingles & _).
    exists j. split_and!; [done|done| |done| |done].
    + eapply Forall_impl; [exact Hchunks|].
      intros batch (j' & -> & Hj'). exists j'. split; [|done].
      rewrite length_drop in Hlen, Hj'. lia.
    + intros msg Hmsg.
      destruct (covered_by_chunks young j msg Hmsg) as [(j' & Hj' & Hin)|Hin];
        [left|by right].
      eapply elem_of_concat_2; [by apply Hcov|done].
  - exact Hsucceed.
Qed.


(** A platform that finds every id (messages with an id below 1000 are
    young, the others are 15 days old), answers the first bulk call of a
    channel with HTTP 429 and a [retry_after] of 2 s, lets the retry
    succeed, fails the third bulk call with HTTP 500, lets the later ones
    succeed, and fails every second individual deletion with [NotFound]. *)
Definition flaky : Platform :=
  {| read_message_history := read_message_history obliging;
     history := history obliging;
     fetch_message := λ _ id,
       Some (spam id (if decide (id < 1000) then 0 else - days 15));
     delete_messages := λ _ k _,
       match k with
       | 0%nat => Some (HTTPException 429 (Some 2000))
       | 2%nat => Some (HTTPException 500 None)
       | _ => None
       end;
     message_delete := λ _ i _, if Nat.even i then None else Some NotFound;
     member_timeout := member_timeout obliging;
     channel_send := channel_send obliging;
     followup_send := followup_send obliging;
     deletion_clock := deletion_clock obliging |}.


Lemma flaky_retry_succeeds k batch e :
  delete_messages flaky general k batch = Some e →
  is_HTTPException e = true → status_of e = 429 →
  delete_messages flaky general (S k) batch = None.
Proof.
  destruct k as [|[|[|k]]]; cbn; intros [= <-] _ H429;
    [reflexivity|discriminate H429].
Qed.

(** The ids of 201 young messages and one old message. *)
Definition two_chunks_and_one : list Z := seqZ 0 201 ++ [1000].

(** On the obliging platform, ids 0 to 100 are young and id 200 is old: one
    bulk call on a chunk of 100, a leftover of exactly one message, which
    is deleted individually after the old one. On the flaky platform, 201
    young messages: the first chunk is bulk-deleted at the retry, the
    second falls back, one message is left over. *)
Lemma bulk_deletion_in_chunks_witness :
  let ids := seqZ 0 101 ++ [200] in
  let run := delete_channel_messages 101 obliging 0 general ids in
  let fetched := omap (fetch_message obliging general) ids in
  let young := filter (λ msg, 0 - days 14 < m_created_at msg) fetched in
  let aged := filter (λ msg, m_created_at msg ≤ 0 - days 14) fetched in
  let run' := delete_channel_messages 201 flaky 0 general two_chunks_and_one in
  let fetched' := omap (fetch_message flaky general) two_chunks_and_one in
  let young' := filter (λ msg, 0 - days 14 < m_created_at msg) fetched' in
  let aged' := filter (λ msg, m_created_at msg ≤ 0 - days 14) fetched' in
  length <$> bulk_calls (trace run) = [100%nat]
  ∧ m_id <$> concat (deferred (trace run)) = [100]
  ∧ m_id <$> concat (single_batches (trace run)) = [200; 100]
  ∧ (∃ leftover,
       concat (bulk_calls (trace run)) ++ leftover = young
       ∧ (length leftover ≤ 1)%nat
       ∧ full_batches 100 (bulk_calls (trace run))
       ∧ concat (single_batches (trace run)) = aged ++ leftover
       ∧ ∃ n, completion run = Returned n)
  ∧ length <$> bulk_calls (trace run') = [100%nat; 100%nat; 100%nat]
  ∧ (∃ j, concat (deferred (trace run')) = drop (100 * j) young'
          ∧ (length (drop (100 * j) young') ≤ 1)%nat
          ∧ Forall (λ batch, ∃ j', (j' < j)%nat
                             ∧ batch = take 100 (drop (100 * j') young'))
              (bulk_calls (trace run'))
          ∧ (∀ j', (j' < j)%nat →
                   take 100 (drop (100 * j') young') ∈ bulk_calls (trace run'))
          ∧ (∀ msg, msg ∈ young' →
                    msg ∈ concat (bulk_calls (trace run'))
                    ∨ msg ∈ drop (100 * j) young')
          ∧ concat (single_batches (trace run')) =
              aged' ++ concat (failed_chunks flaky general 0
                                 (bulk_calls (trace run')))
                ++ drop (100 * j) young').
Proof.
  intros ids run fetched young aged run' fetched' young' aged'.
  pose proof (bulk_deletion_in_chunks 101 obliging 0 general ids)
    as (_ & _ & Hsucceed).
  pose proof (bulk_deletion_in_chunks 201 flaky 0 general two_chunks_and_one)
    as (_ & Hreturned & _).
  split_and!.
  - vm_compute. reflexivity.
  - vm_compute. reflexivity.
  - vm_compute. reflexivity.
  - apply Hsucceed.
    + reflexivity.
    + vm_compute. lia.
  - vm_compute. reflexivity.
  - apply (Hreturned 151%nat). vm_compute. reflexivity.
Defined.


(** On the flaky platform the first bulk call is answered with HTTP 429
    and its retry succeeds: the run ends. *)
Lemma deletion_ends_when_retries_succeed_witness :
  let run := delete_channel_messages 201 flaky 0 general two_chunks_and_one in
  delete_messages flaky general 0
    (take 100 (recent_of 0 (resolved flaky general two_chunks_and_one)))
    = Some (HTTPException 429 (Some 2000))
  ∧ completion run = Returned 151
  ∧ completion run ≠ Unfinished.
Proof.
  intros run. split_and!; [reflexivity|vm_compute; reflexivity|].
  apply (deletion_ends_when_retries_succeed 201 flaky 0 general
           two_chunks_and_one).
  - apply flaky_retry_succeeds.
  - vm_compute. lia.
Defined.

(** On the flaky platform the chunk of the retried call is counted once:
    151 of 202 ids. *)
Lemma deleted_count_is_bounded_witness :
  let run := delete_channel_messages 201 flaky 0 general two_chunks_and_one in
  delete_messages flaky general 0
    (take 100 (recent_of 0 (resolved flaky general two_chunks_and_one)))
    = Some (HTTPException 429 (Some 2000))
  ∧ completion run = Returned 151
  ∧ (151 ≤ length two_chunks_and_one)%nat.
Proof.
  intros run. split_and!; [reflexivity|vm_compute; reflexivity|].
  apply (deleted_count_is_bounded 201 flaky 0 general two_chunks_and_one 151).
  - apply flaky_retry_succeeds.
  - vm_compute. reflexivity.
Defined.


